(** * Ifrit (Fireflies membership overlay): ring slices, gossip data and the
      note/accusation algebra, embedded from the Go sources.

    Part I holds the embedding (definitions only), Part II the theorems
    about the note/accusation algebra, the ring slices and the gossip data,
    Part III further properties of the same code: what the functions do at
    their edges, what they never do and how they compose.

    - [Go]      : what a Go call can do besides returning (panic), and the
                  machine integers the code computes with.
    - [Sort]    : node/sort.go, the binary-search [insert] and [search] on a
                  ring slice.
    - [Gossip]  : lib/node/node.go, [AppendGossipData] and its neighbours.
    - [Node]    : the server side of the gossip exchange ([Spread],
                  [evalNote], [evalAccusation], [evalCertificate], the merge
                  loops).
    - [World]   : a small instance of what the server needs from the rest
                  of the repository, to run it on concrete inputs. *)

From Stdlib Require Import ZArith Lia Bool.
From Stdlib Require Strings.Byte.
From stdpp Require Import base tactics option list gmap strings.

#[local] Open Scope Z_scope.

(* ===================================================================== *)
(** * Part I. The embedding                                               *)
(* ===================================================================== *)

Module Go.

(** A Go call either returns a value or panics at run time.  Loops are
    unrolled with a fuel counter; [OutOfFuel] is the model's artefact, and
    Part II shows that [insert] and [search] never reach it. *)
Inductive outcome (A : Type) : Type :=
| Returns (a : A)
| Panics
| OutOfFuel.
Arguments Returns {A} a.
Arguments Panics {A}.
Arguments OutOfFuel {A}.

Definition bind {A B} (o : outcome A) (k : A → outcome B) : outcome B :=
  match o with
  | Returns a => k a
  | Panics => Panics
  | OutOfFuel => OutOfFuel
  end.

(** [slice[i]] for an [int] index: a run-time panic outside [0, len). *)
Definition index {A} (slice : list A) (i : Z) : option A :=
  if bool_decide (0 ≤ i) then slice !! Z.to_nat i else None.

(** [len(slice)] as an [int]. *)
Definition len {A} (slice : list A) : Z := Z.of_nat (length slice).

(** uint64 arithmetic wraps around. *)
Definition uint64_mod : Z := 2 ^ 64.
Definition wrap64 (z : Z) : Z := z `mod` uint64_mod.
Definition is_uint64 (z : Z) : Prop := 0 ≤ z < uint64_mod.

End Go.

#[global] Instance outcome_bind : MBind Go.outcome := λ A B k o, Go.bind o k.
#[global] Instance outcome_ret : MRet Go.outcome := λ A a, Go.Returns a.

(* --------------------------------------------------------------------- *)
(** ** node/sort.go                                                       *)
(* --------------------------------------------------------------------- *)

Module Sort.
Import Go.

(** Modelled from the spec: the [ringId] type and its [cmpId] method are
    declared outside src/.  A ring entry is a peer id positioned on the ring
    by a hash read as an unsigned big integer; [cmpId] is the numeric
    comparison of the two positions with [big.Int.Cmp]'s result
    convention (-1, 0, +1).  Slice entries are taken to be non-nil. *)
Record ringId : Type := RingId { id : Z }.

(** Modelled from the spec: [cmpId] is not under src/; "comparison is
    numeric", with the result convention of [big.Int.Cmp]. *)
Definition cmpId (r other : ringId) : Z :=
  match id r ?= id other with
  | Lt => -1
  | Eq => 0
  | Gt => 1
  end.

Inductive error : Type := errIdNotFound.

(** The tail of [insert], reached when [currIdx >= maxIdx]:
<<
    slice = append(slice, nil)
    copy(slice[currIdx+1:], slice[currIdx:])
    if slice[currIdx].cmpId(newId) == -1 { currIdx += 1 }
    slice[currIdx] = newId
>>
    After the append and the copy the entries from [currIdx] on have moved
    one place up and position [currIdx] still holds its old entry; the
    appended nil is overwritten because [currIdx < len].  For an index
    outside the old slice the Go code panics (slice bounds, or the method
    call on the nil entry at [currIdx = len]). *)
Definition insert_here (slice : list ringId) (newId : ringId) (currIdx : Z)
  : outcome (list ringId * Z) :=
  match index slice currIdx with
  | None => Panics
  | Some x =>
      let c := Z.to_nat currIdx in
      let shifted := take c slice ++ x :: drop c slice in
      let currIdx' := if cmpId x newId =? -1 then currIdx + 1 else currIdx in
      Returns (<[Z.to_nat currIdx' := newId]> shifted, currIdx')
  end.

(** The [for] loop of [insert]; Go's [/] on [int] truncates. *)
Fixpoint insert_loop (fuel : nat) (slice : list ringId) (newId : ringId)
    (currIdx maxIdx : Z) : outcome (list ringId * Z) :=
  match fuel with
  | O => OutOfFuel
  | S fuel' =>
      if bool_decide (currIdx >= maxIdx) then insert_here slice newId currIdx
      else
        let mid := (currIdx + maxIdx) `quot` 2 in
        match index slice mid with
        | None => Panics
        | Some x =>
            if cmpId x newId =? -1
            then insert_loop fuel' slice newId (mid + 1) maxIdx
            else insert_loop fuel' slice newId currIdx (mid - 1)
        end
  end.

Definition insert (slice : list ringId) (newId : ringId)
  : outcome (list ringId * Z) :=
  let length := len slice in
  let currIdx := 0 in
  let maxIdx := length - 1 in
  if maxIdx =? -1 then Returns (slice ++ [newId], currIdx)
  else insert_loop (S (List.length slice)) slice newId currIdx maxIdx.

(** The [for] loop of [search]. *)
Fixpoint search_loop (fuel : nat) (slice : list ringId) (searchId : ringId)
    (currIdx maxIdx : Z) : outcome (Z * option error) :=
  match fuel with
  | O => OutOfFuel
  | S fuel' =>
      if bool_decide (currIdx >= maxIdx) then
        match index slice currIdx with
        | None => Panics
        | Some x =>
            if cmpId x searchId =? 0 then Returns (currIdx, None)
            else Returns (-1, Some errIdNotFound)
        end
      else
        let mid := (currIdx + maxIdx) `quot` 2 in
        match index slice mid with
        | None => Panics
        | Some x =>
            let cmp := cmpId x searchId in
            if cmp =? -1 then search_loop fuel' slice searchId (mid + 1) maxIdx
            else if cmp =? 1 then search_loop fuel' slice searchId currIdx (mid - 1)
            else Returns (mid, None)
        end
  end.

Definition search (slice : list ringId) (searchId : ringId)
  : outcome (Z * option error) :=
  let length := len slice in
  let currIdx := 0 in
  let maxIdx := length - 1 in
  search_loop (S (List.length slice)) slice searchId currIdx maxIdx.

(** Modelled from the spec: the ring's [remove] is not under src/.
    "remove(peer): binary-search then delete; fails with IdNotFound if
    absent." *)
Definition remove (slice : list ringId) (rid : ringId)
  : outcome (list ringId * option error) :=
  r ← search slice rid;
  match r with
  | (idx, None) => Returns (delete (Z.to_nat idx) slice, None)
  | (_, Some e) => Returns (slice, Some e)
  end.

(** A run of [insert] calls, each on the slice the previous one returned. *)
Fixpoint insert_all (slice : list ringId) (ids : list ringId)
  : outcome (list ringId) :=
  match ids with
  | [] => Returns slice
  | x :: ids' => r ← insert slice x; insert_all r.1 ids'
  end.

(** Ring order: entries in strictly increasing position order. *)
Definition strictly_increasing (slice : list ringId) : Prop :=
  ∀ (i j : nat) x y,
    slice !! i = Some x → slice !! j = Some y → (i < j)%nat → id x < id y.

(** Each id at most once. *)
Definition no_duplicate_id (slice : list ringId) : Prop :=
  ∀ (i j : nat) x y,
    slice !! i = Some x → slice !! j = Some y → cmpId x y = 0 → i = j.

Definition absent (rid : ringId) (slice : list ringId) : Prop :=
  ∀ x, x ∈ slice → cmpId x rid ≠ 0.

Fixpoint strictly_increasingb (slice : list ringId) : bool :=
  match slice with
  | [] => true
  | x :: rest =>
      match rest with
      | [] => true
      | y :: _ => (id x <? id y) && strictly_increasingb rest
      end
  end.

Definition absentb (rid : ringId) (slice : list ringId) : bool :=
  forallb (fun x => negb (cmpId x rid =? 0)) slice.

(** Non-strict ring order, which a slice with a repeated id still has. *)
Definition ascending (slice : list ringId) : Prop :=
  ∀ (i j : nat) x y,
    slice !! i = Some x → slice !! j = Some y → (i ≤ j)%nat → id x ≤ id y.

(** The slice with [x] put in front of position [k]. *)
Definition insert_at (k : nat) (x : ringId) (slice : list ringId) : list ringId :=
  take k slice ++ x :: drop k slice.

(** What a [search] result can be: the not-found pair, or an index whose
    entry compares equal to the id searched for. *)
Definition search_sound (slice : list ringId) (searchId : ringId)
    (r : Z * option error) : Prop :=
  r = (-1, Some errIdNotFound) ∨
  ∃ i x, r = (i, None) ∧ index slice i = Some x ∧ cmpId x searchId = 0.

(** Where a new id belongs: every smaller entry in front of position [k],
    no smaller entry from [k] on. *)
Definition insertion_point (slice : list ringId) (newId : ringId) (k : nat) : Prop :=
  (k ≤ length slice)%nat
  ∧ (∀ (i : nat) x, slice !! i = Some x → (i < k)%nat → id x < id newId)
  ∧ (∀ (i : nat) x, slice !! i = Some x → (k ≤ i)%nat → id newId ≤ id x).

End Sort.

(* --------------------------------------------------------------------- *)
(** ** lib/node/node.go: the gossip data map                              *)
(* --------------------------------------------------------------------- *)

Module Gossip.

Inductive error : Type :=
| errNoRingNum
| errNoId
| errNoData
| readerError (msg : string).

(** An [io.Reader].  [Read p] is handed a buffer and answers with the
    bytes it puts into [p] (what does not fit in [len(p)] is not written),
    the count [n] it reports and its error.  The reader sees the buffer
    only through its length: it cannot grow the caller's slice. *)
Record Reader : Type := { Read : nat → string * Z * option error }.

(** The documented contract of [io.Reader.Read]: [0 <= n <= len(p)]. *)
Definition io_Reader_contract (data : Reader) : Prop :=
  ∀ (lenp : nat), 0 ≤ (Read data lenp).1.2 ≤ Z.of_nat lenp.

(** The part of [Node] these functions touch. *)
Record Node : Type := { gossipDataMap : gmap string string }.



(** [var bytes []byte] is the nil slice: the buffer handed to [Read] has
    length 0, and [bytes] is what is stored afterwards. *)
Definition AppendGossipData (n : Node) (id : string) (data : Reader)
  : Node * option error :=
  let bytes : string := EmptyString in
  let '(written, numRead, err) := Read data (String.length bytes) in
  let bytes := String.substring 0 (String.length bytes) written in
  match err with
  | Some e => (n, Some e)
  | None =>
      if numRead <=? 0 then (n, Some errNoData)
      else ({| gossipDataMap := <[id := bytes]> (gossipDataMap n) |}, None)
  end.

(** A reader over a fixed payload that hands out as much of it as the
    buffer takes, and a reader that breaks the contract by reporting one
    byte whatever the buffer. *)
Definition payloadReader (payload : string) : Reader :=
  {| Read := λ lenp,
       (String.substring 0 lenp payload,
        Z.of_nat (Nat.min lenp (String.length payload)), None) |}.

Definition lyingReader : Reader := {| Read := λ _, ("x", 1, None) |}.

(** *** The ring count in [NewNode] *)

(** A [pkix.Extension]: its object identifier and its value, [None] for
    the nil slice. *)
Record Extension : Type :=
  { Id : list Z; Value : option (list Byte.byte) }.

Definition byteVal (b : Byte.byte) : Z := Z.of_N (Byte.to_N b).

(** [binary.LittleEndian.Uint32]: it reads [b[3]] first, a run-time panic
    on fewer than four bytes, and ignores what follows them. *)
Definition Uint32 (b : list Byte.byte) : Go.outcome Z :=
  match b with
  | b0 :: b1 :: b2 :: b3 :: _ =>
      Go.Returns
        (Z.lor (Z.lor (Z.lor (byteVal b0) (Z.shiftl (byteVal b1) 8))
                      (Z.shiftl (byteVal b2) 16))
               (Z.shiftl (byteVal b3) 24))
  | _ => Go.Panics
  end.

(** [asn1.ObjectIdentifier{2, 5, 13, 37}] *)
Definition ringNumOid : list Z := [2; 5; 13; 37].

(** What [NewNode] does with its own certificate once the CA has answered:
    the id check, the loop over the extensions (every match overwrites
    [extValue]), the nil check and the decoding of [numRings]. *)
Definition ownRingNum (SubjectKeyId : list Byte.byte)
    (extensions : list Extension) : Go.outcome (Z + error) :=
  if bool_decide (length SubjectKeyId < 1)%nat then Go.Returns (inr errNoId)
  else
    let extValue :=
      foldl (λ extValue e,
               if bool_decide (Id e = ringNumOid) then Value e else extValue)
            None extensions in
    match extValue with
    | None => Go.Returns (inr errNoRingNum)
    | Some v =>
        match Uint32 v with
        | Go.Returns numRings => Go.Returns (inl numRings)
        | Go.Panics => Go.Panics
        | Go.OutOfFuel => Go.OutOfFuel
        end
    end.

(** No extension of the list has the ring-count identifier. *)
Definition noRingNum (exts : list Extension) : Prop :=
  Forall (λ e, Id e ≠ ringNumOid) exts.

(** Modelled from the spec: the CA's side is not under src/.  The
    extension "carries the ring count K as a little-endian uint32 in its
    first 4 bytes". *)
Definition byteOf (z : Z) : Byte.byte :=
  default Byte.x00 (Byte.of_N (Z.to_N z)).

Definition littleEndian32 (k : Z) : list Byte.byte :=
  [ byteOf (k `mod` 256); byteOf ((k / 2 ^ 8) `mod` 256);
    byteOf ((k / 2 ^ 16) `mod` 256); byteOf ((k / 2 ^ 24) `mod` 256) ].

End Gossip.

(* --------------------------------------------------------------------- *)
(** ** The gossip server: Spread, the merge loops, evalNote,
       evalAccusation, evalCertificate                                    *)
(* --------------------------------------------------------------------- *)

Module Node.
Import Go.

(** Byte slices are strings: the code itself keys its maps by
    [string(id[:])].  Epochs are uint64, held in [Z]. *)

Inductive error : Type :=
| errNoPeerInCtx
| errNoTLSInfo
| errNoCert
| errNeighbourPeerNotFound
| errNotMyNeighbour
| errInvalidPeerInformation
| otherError (msg : string).

(** *** Wire messages (package gossip) and certificates *)

Record Signature : Type := { GetR : string; GetS : string }.
Record Note : Type :=
  { nEpoch : Z; nId : string; nSignature : Signature }.
Record Accusation : Type :=
  { aEpoch : Z; aAccuser : string; aAccused : string; aSignature : Signature }.
Record Certificate : Type := { Raw : string }.
Record GossipMsg : Type :=
  { Certificates : list Certificate;
    Notes : list Note;
    Accusations : list Accusation }.
Record Partners : Type := { pCertificates : list Certificate }.

(** The fields of an [x509.Certificate] the code reads. *)
Record x509Certificate : Type :=
  { SubjectKeyId : string;
    Locality : list string;
    PublicKey : string;
    certRaw : string }.

(** The authenticated channel: [grpcPeer.FromContext] may find no peer,
    its [AuthInfo] may not be [credentials.TLSInfo]. *)
Inductive AuthInfo : Type :=
| TLSInfo (PeerCertificates : list x509Certificate)
| otherAuthInfo.
Definition Context : Type := option AuthInfo.

(** *** Peers, notes, accusations *)

(** Modelled from the spec: the types of peer.go are declared outside src/;
    their fields are the ones the functions below read and write.  "PeerId:
    opaque byte string"; "Note: { peerId, epoch, signature }"; "Accusation:
    { accusedId, accuserId, epoch, signature }"; "Peer: { id, address,
    publicKey, certificate, recentNote?, accusation? }". *)
Record peerId : Type := PeerId { id : string }.
Record signature : Type := { r : string; s : string }.
Record note : Type :=
  { note_peerId : peerId; epoch : Z; note_signature : signature }.
Record accusation : Type :=
  { acc_peerId : peerId;
    acc_epoch : Z;
    accuser : peerId;
    acc_signature : signature }.

Record peer : Type :=
  { p_peerId : peerId;
    key : string;
    addr : string;
    publicKey : string;
    cert : x509Certificate;
    recentNote : option note;
    p_accusation : option accusation }.

(** Peers are shared objects: the view map, the live map and the timeout
    entries hold pointers to them.  [loc] is the address of a peer
    object in [heap]. *)
Definition loc : Type := nat.

(** The [timeout] of node.go; [timeStamp] is wall-clock time and is left
    out. *)
Record timeout : Type :=
  { observer : loc; lastNote : option note; t_addr : string }.

#[global] Instance peer_inhabited : Inhabited peer :=
  populate {| p_peerId := PeerId EmptyString; key := EmptyString;
              addr := EmptyString; publicKey := EmptyString;
              cert := {| SubjectKeyId := EmptyString; Locality := [];
                         PublicKey := EmptyString; certRaw := EmptyString |};
              recentNote := None; p_accusation := None |}.

(** *** What the rest of the repository supplies

    The ring set, the signature scheme, [fmt]'s rendering of a message and
    the failure conditions of two constructors live outside src/; the
    functions below take them as an interface.  [R] is the state of the
    ring set. *)
Class Env (R : Type) : Type :=
  { (* view.go / ring.go *)
    ring_add : peer → R → R;
    isHigherRank : R → peerId → peerId → bool;
    isPrev : R → peer → peer → bool;
    shouldBeNeighbours : R → string → bool;
    findNeighbours : R → string → list string;
    (* signatures *)
    validateSignature : string → string → string → string → bool * option error;
    signNote : peerId → Z → signature;
    (* fmt.Sprintf("%v", tmp) *)
    fmtNote : Z → string → string;
    fmtAccusation : Z → string → string → string;
    (* x509.ParseCertificate *)
    ParseCertificate : string → option x509Certificate;
    (* when newPeer and setAccusation return an error *)
    newPeerError : x509Certificate → option error;
    setAccusationError : peer → accusation → option error }.

(** The node: the local peer's id and note, the peer objects and the maps
    of the view.  [rebuttals] records the calls of the protocol's
    [Rebuttal], with the local note each one gossips.  Logging is not
    part of the state. *)
Record Node (R : Type) : Type :=
  { peerId_ : peerId;
    recentNote_ : note;
    localAddr : string;
    heap : gmap loc peer;
    viewMap : gmap string loc;
    liveMap : gmap string loc;
    timeoutMap : gmap string timeout;
    rings : R;
    rebuttals : list note }.
Arguments peerId_ {R} _.
Arguments recentNote_ {R} _.
Arguments localAddr {R} _.
Arguments heap {R} _.
Arguments viewMap {R} _.
Arguments liveMap {R} _.
Arguments timeoutMap {R} _.
Arguments rings {R} _.
Arguments rebuttals {R} _.

(** Where each [return] of [evalAccusation] and [evalNote] leaves. *)
Inductive accusation_verdict : Type :=
| SelfAccused              (* accused is the local node: rebuttal *)
| AccusedNotLive           (* getLivePeer(accusedKey) == nil *)
| Stale                    (* peerNote != nil && !(epoch > peerNote.epoch) *)
| AccuserNotLive
| LowerRank                (* "Already have accusation from higher ranked member" *)
| SignatureError
| InvalidSignature
| NotPredecessor
| SetAccusationFailed
| Recorded.

Inductive note_verdict : Type :=
| NoteUnknownPeer
| NoteSignatureError
| NoteInvalidSignature
| NoteAccepted             (* stored with setNote *)
| NoteNotNewer
| NoteRebuttal             (* accusation removed *)
| NoteNotRebutting.

#[global] Instance accusation_verdict_eq_dec : EqDecision accusation_verdict.
Proof. solve_decision. Defined.
#[global] Instance note_verdict_eq_dec : EqDecision note_verdict.
Proof. solve_decision. Defined.

Section WithEnv.
Context {R : Type} `{!Env R}.
Implicit Types (n : Node R) (p : loc).

Definition set_heap n (h : gmap loc peer) : Node R :=
  {| peerId_ := peerId_ n; recentNote_ := recentNote_ n;
     localAddr := localAddr n; heap := h; viewMap := viewMap n;
     liveMap := liveMap n; timeoutMap := timeoutMap n; rings := rings n;
     rebuttals := rebuttals n |}.

(** [*p] *)
Definition deref n p : peer := heap n !!! p.

(** Modelled from the spec: [peerId.equal] is not under src/.  "Equality
    is byte equality." *)
Definition equal (a b : peerId) : bool := bool_decide (id a = id b).

(** **** Accessors of view.go and peer.go, none of them under src/ *)

(** Modelled from the spec: "View owns viewMap: id → Peer". *)
Definition getViewPeer n (k : string) : option loc := viewMap n !! k.

(** Modelled from the spec: "View owns liveMap: id → Peer". *)
Definition getLivePeer n (k : string) : option loc := liveMap n !! k.

(** Modelled from the spec: membership in "viewMap: id → Peer". *)
Definition viewPeerExist n (k : string) : bool :=
  bool_decide (is_Some (viewMap n !! k)).

(** Modelled from the spec: membership in "timeoutMap: id → Timeout". *)
Definition timerExist n (k : string) : bool :=
  bool_decide (is_Some (timeoutMap n !! k)).

(** Modelled from the spec: a peer holds its "current best note". *)
Definition getNote (P : peer) : option note := recentNote P.

(** Modelled from the spec: a peer holds its "current accusation if
    any". *)
Definition getAccusation (P : peer) : option accusation := p_accusation P.

Definition peer_setNote (P : peer) (nt : note) : peer :=
  {| p_peerId := p_peerId P; key := key P; addr := addr P;
     publicKey := publicKey P; cert := cert P;
     recentNote := Some nt; p_accusation := p_accusation P |}.

Definition peer_setAccusation (P : peer) (a : option accusation) : peer :=
  {| p_peerId := p_peerId P; key := key P; addr := addr P;
     publicKey := publicKey P; cert := cert P;
     recentNote := recentNote P; p_accusation := a |}.

(** Modelled from the spec: "replace the note", on the shared peer
    object. *)
Definition setNote n p (nt : note) : Node R :=
  set_heap n (alter (λ P, peer_setNote P nt) p (heap n)).

(** Modelled from the spec: "clear the accusation", on the shared peer
    object. *)
Definition removeAccusation n p : Node R :=
  set_heap n (alter (λ P, peer_setAccusation P None) p (heap n)).

(** Modelled from the spec: "Record the accusation on the peer".  When
    [setAccusation] reports an error the peer is taken to be left as it
    was. *)
Definition setAccusation n p (a : accusation) : Node R * option error :=
  match setAccusationError (deref n p) a with
  | Some e => (n, Some e)
  | None =>
      (set_heap n (alter (λ P, peer_setAccusation P (Some a)) p (heap n)),
       None)
  end.

(** Modelled from the spec: "addViewPeer(p)" puts the peer into "viewMap:
    id → Peer" under its key. *)
Definition addViewPeer n p : Node R :=
  {| peerId_ := peerId_ n; recentNote_ := recentNote_ n;
     localAddr := localAddr n; heap := heap n;
     viewMap := <[key (deref n p) := p]> (viewMap n);
     liveMap := liveMap n; timeoutMap := timeoutMap n; rings := rings n;
     rebuttals := rebuttals n |}.

(** Modelled from the spec: the live map gets the peer, and so do the
    rings ("each ring sorts a distinct hash of every peer id"). *)
Definition addLivePeer n p : Node R :=
  {| peerId_ := peerId_ n; recentNote_ := recentNote_ n;
     localAddr := localAddr n; heap := heap n; viewMap := viewMap n;
     liveMap := <[key (deref n p) := p]> (liveMap n);
     timeoutMap := timeoutMap n;
     rings := ring_add (deref n p) (rings n);
     rebuttals := rebuttals n |}.

Definition set_timeoutMap n (t : gmap string timeout) : Node R :=
  {| peerId_ := peerId_ n; recentNote_ := recentNote_ n;
     localAddr := localAddr n; heap := heap n; viewMap := viewMap n;
     liveMap := liveMap n; timeoutMap := t; rings := rings n;
     rebuttals := rebuttals n |}.

(** Modelled from the spec: "a timeout entry is created". *)
Definition startTimer n (k : string) (lastNote : option note)
    (observer : loc) (addr : string) : Node R :=
  set_timeoutMap n
    (<[k := {| observer := observer; lastNote := lastNote; t_addr := addr |}]>
       (timeoutMap n)).

(** Modelled from the spec: "If a rebuttal arrives first, the timeout
    entry is cleared". *)
Definition deleteTimeout n (k : string) : Node R :=
  set_timeoutMap n (delete k (timeoutMap n)).

(** Modelled from the spec: [setEpoch] is not under src/.  The local
    state holds "currentEpoch, recentSelfNote"; the setter stores the
    epoch it is given in the local note and signs the note again
    ("resign local note"). *)
Definition setEpoch n (newEpoch : Z) : Node R :=
  {| peerId_ := peerId_ n;
     recentNote_ := {| note_peerId := note_peerId (recentNote_ n);
                       epoch := newEpoch;
                       note_signature := signNote (peerId_ n) newEpoch |};
     localAddr := localAddr n; heap := heap n; viewMap := viewMap n;
     liveMap := liveMap n; timeoutMap := timeoutMap n; rings := rings n;
     rebuttals := rebuttals n |}.

(** Modelled from the spec: the protocol's [Rebuttal] is not under src/;
    it is to "schedule immediate gossip", carrying the local note. *)
Definition Rebuttal n : Node R :=
  {| peerId_ := peerId_ n; recentNote_ := recentNote_ n;
     localAddr := localAddr n; heap := heap n; viewMap := viewMap n;
     liveMap := liveMap n; timeoutMap := timeoutMap n; rings := rings n;
     rebuttals := rebuttals n ++ [recentNote_ n] |}.

(** Modelled from the spec: [newPeer] is not under src/.  "The
    certificate's SubjectKeyId is the peer id"; the address is the first
    Locality string; a new peer has neither note nor accusation unless
    one is passed in. *)
Definition newPeer (recentNote : option note) (cert : x509Certificate)
  : peer + error :=
  match newPeerError cert with
  | Some e => inr e
  | None =>
      inl {| p_peerId := PeerId (SubjectKeyId cert);
             key := SubjectKeyId cert;
             addr := default EmptyString (head (Locality cert));
             publicKey := PublicKey cert;
             cert := cert;
             recentNote := recentNote;
             p_accusation := None |}
  end.

(** [&peer{...}]: a new object at an address not in use. *)
Definition alloc n (P : peer) : Node R * loc :=
  let p := fresh (dom (heap n)) in
  (set_heap n (<[p := P]> (heap n)), p).

(** **** The functions of the gossip server, from the source *)

Definition evalAccusation n (a : Accusation) : Node R * accusation_verdict :=
  let sign := aSignature a in
  let epoch := aEpoch a in
  let accuser := aAccuser a in
  let accused := aAccused a in
  let accusedKey := accused in
  let accuserKey := accuser in
  if equal (peerId_ n) (PeerId accused) then
    let n := setEpoch n (wrap64 (epoch + 1)) in
    let n := Rebuttal n in
    (n, SelfAccused)
  else
    match getLivePeer n accusedKey with
    | None => (n, AccusedNotLive)
    | Some p =>
        let peerNote := getNote (deref n p) in
        if match peerNote with
           | None => true
           | Some pn => epoch >? Node.epoch pn
           end
        then
          match getLivePeer n accuserKey with
          | None => (n, AccuserNotLive)
          | Some accuserPeer =>
              let peerAccusation := getAccusation (deref n p) in
              if match peerAccusation with
                 | Some pa =>
                     negb (isHigherRank (rings n)
                             (p_peerId (deref n accuserPeer)) (Node.accuser pa))
                 | None => false
                 end
              then (n, LowerRank)
              else
                let b := fmtAccusation epoch accuser accused in
                match validateSignature (GetR sign) (GetS sign) b
                        (publicKey (deref n accuserPeer)) with
                | (_, Some err) => (n, SignatureError)
                | (false, None) => (n, InvalidSignature)
                | (true, None) =>
                    if negb (isPrev (rings n) (deref n accuserPeer) (deref n p))
                    then (n, NotPredecessor)
                    else
                      let a' :=
                        {| acc_peerId := p_peerId (deref n p);
                           acc_epoch := epoch;
                           accuser := p_peerId (deref n accuserPeer);
                           acc_signature := {| r := GetR sign; s := GetS sign |} |} in
                      match setAccusation n p a' with
                      | (n, Some err) => (n, SetAccusationFailed)
                      | (n, None) =>
                          let n :=
                            if negb (timerExist n accusedKey)
                            then startTimer n (key (deref n p))
                                   (recentNote (deref n p)) accuserPeer
                                   (addr (deref n p))
                            else n in
                          (n, Recorded)
                      end
                end
          end
        else (n, Stale)
    end.

Definition evalNote n (gossipNote : Note) : Node R * note_verdict :=
  let epoch := nEpoch gossipNote in
  let sign := nSignature gossipNote in
  let id := nId gossipNote in
  let peerKey := id in
  match getViewPeer n peerKey with
  | None => (n, NoteUnknownPeer)
  | Some p =>
      let b := fmtNote epoch id in
      match validateSignature (GetR sign) (GetS sign) b (publicKey (deref n p)) with
      | (_, Some err) => (n, NoteSignatureError)
      | (false, None) => (n, NoteInvalidSignature)
      | (true, None) =>
          match getAccusation (deref n p) with
          | None =>
              let currNote := getNote (deref n p) in
              if match currNote with
                 | None => true
                 | Some cn => Node.epoch cn <? epoch
                 end
              then
                let newNote :=
                  {| note_peerId := p_peerId (deref n p);
                     epoch := epoch;
                     note_signature := {| r := GetR sign; s := GetS sign |} |} in
                let n := setNote n p newNote in
                let n :=
                  match getLivePeer n peerKey with
                  | None => addLivePeer n p
                  | Some _ => n
                  end in
                (n, NoteAccepted)
              else (n, NoteNotNewer)
          | Some peerAccuse =>
              if acc_epoch peerAccuse <? epoch then
                let n := deleteTimeout n peerKey in
                let n := removeAccusation n p in
                let n := addLivePeer n p in
                (n, NoteRebuttal)
              else (n, NoteNotRebutting)
          end
      end
  end.

Definition evalCertificate n (cert : x509Certificate) : Node R :=
  if bool_decide (length (Locality cert) = 0%nat)
     || bool_decide (head (Locality cert) = Some (localAddr n))
  then n
  else if bool_decide (String.length (SubjectKeyId cert) = 0%nat)
          || equal (peerId_ n) (PeerId (SubjectKeyId cert))
  then n
  else
    let peerKey := SubjectKeyId cert in
    match getViewPeer n peerKey with
    | Some _ => n
    | None =>
        match newPeer None cert with
        | inr err => n
        | inl P => let '(n, p) := alloc n P in addViewPeer n p
        end
    end.

Definition mergeNotes n (notes : list Note) : Node R :=
  foldl (λ n newNote,
           if equal (peerId_ n) (PeerId (nId newNote)) then n
           else (evalNote n newNote).1)
        n notes.

Definition mergeAccusations n (accusations : list Accusation) : Node R :=
  foldl (λ n acc, (evalAccusation n acc).1) n accusations.

Definition mergeCertificates n (certs : list Certificate)
    (remoteCert : x509Certificate) : Node R :=
  let n := evalCertificate n remoteCert in
  foldl (λ n b,
           match ParseCertificate (Raw b) with
           | None => n
           | Some cert => evalCertificate n cert
           end)
        n certs.

(** The caller is added to the view and to the live set when the view
    does not know it; [None] when [newPeer] fails. *)
Definition addCaller n (key : string) (cert : x509Certificate)
  : option (Node R) :=
  if negb (viewPeerExist n key) then
    match newPeer None cert with
    | inr err => None
    | inl P =>
        let '(n, p) := alloc n P in
        let n := addViewPeer n p in
        let n := addLivePeer n p in
        Some n
    end
  else Some n.

Definition Spread n (ctx : Context) (args : GossipMsg)
  : outcome (Node R * (option Partners * option error)) :=
  let reply := {| pCertificates := [] |} in
  match ctx with
  | None => Returns (n, (None, Some errNoPeerInCtx))
  | Some otherAuthInfo => Returns (n, (None, Some errNoTLSInfo))
  | Some (TLSInfo PeerCertificates) =>
      match PeerCertificates with
      | [] => Returns (n, (None, Some errNoCert))
      | cert :: _ =>
          let key := SubjectKeyId cert in
          if negb (shouldBeNeighbours (rings n) (SubjectKeyId cert)) then
            (* the debug line prints cert.Subject.Locality[0] *)
            match Locality cert with
            | [] => Panics
            | _ :: _ =>
                match addCaller n key cert with
                | None => Returns (n, (None, Some errInvalidPeerInformation))
                | Some n =>
                    let peerKeys := findNeighbours (rings n) (SubjectKeyId cert) in
                    let reply :=
                      foldl (λ reply k,
                               match getLivePeer n k with
                               | Some p =>
                                   let c := {| Raw := certRaw (Node.cert (deref n p)) |} in
                                   {| pCertificates := pCertificates reply ++ [c] |}
                               | None => reply
                               end)
                            reply peerKeys in
                    Returns (n, (Some reply, None))
                end
            end
          else
            match addCaller n key cert with
            | None => Returns (n, (None, Some errInvalidPeerInformation))
            | Some n =>
                let n := mergeCertificates n (Certificates args) cert in
                let n := mergeNotes n (Notes args) in
                let n := mergeAccusations n (Accusations args) in
                Returns (n, (Some reply, None))
            end
      end
  end.

(** The id [evalAccusation] ranks an accusation by: that of the peer
    object the live map holds for the accuser. *)
Definition accuserId n (a : Accusation) : option peerId :=
  (λ q, p_peerId (deref n q)) <$> getLivePeer n (aAccuser a).

(** The staleness test of [evalAccusation] passes for the peer at [p]. *)
Definition notStale n (a : Accusation) p : bool :=
  match getNote (deref n p) with
  | None => true
  | Some pn => aEpoch a >? epoch pn
  end.

(** The signature check of [evalNote] passes for [gossipNote] against
    the peer at [p]. *)
Definition validNote n (gossipNote : Note) p : Prop :=
  validateSignature (GetR (nSignature gossipNote)) (GetS (nSignature gossipNote))
    (fmtNote (nEpoch gossipNote) (nId gossipNote)) (publicKey (deref n p))
  = (true, None).

(** The note [evalNote] builds from an incoming one. *)
Definition noteFrom n (gossipNote : Note) p : note :=
  {| note_peerId := p_peerId (deref n p);
     epoch := nEpoch gossipNote;
     note_signature := {| r := GetR (nSignature gossipNote);
                          s := GetS (nSignature gossipNote) |} |}.

(** The epoch of the note stored on the peer at [p], if any. *)
Definition storedEpoch n p : option Z := epoch <$> recentNote (deref n p).

(** The epochs of the notes of a run that [evalNote] accepted for the
    peer object at [p], in order. *)
Definition acceptedEpochs n p (notes : list Note) (vs : list note_verdict)
  : list Z :=
  omap (λ gv : Note * note_verdict,
          if bool_decide (getViewPeer n (nId gv.1) = Some p
                          ∧ gv.2 = NoteAccepted)
          then Some (nEpoch gv.1) else None)
       (zip notes vs).

(** The maximum of an optional epoch and a list of epochs. *)
Definition maxEpoch (o : option Z) (es : list Z) : option Z :=
  foldl (λ o e, Some (from_option (Z.max e) e o)) o es.

(** The certificates of those of [ks] that are in the live map, in
    order: what the reply loop of [Spread] collects. *)
Definition liveCerts n (ks : list string) : list Certificate :=
  omap (λ k, (λ p, {| Raw := certRaw (Node.cert (deref n p)) |})
               <$> getLivePeer n k) ks.

(** The signature check of [evalAccusation] passes against the accuser
    at [q]. *)
Definition validAccusation n (a : Accusation) (q : loc) : Prop :=
  validateSignature (GetR (aSignature a)) (GetS (aSignature a))
    (fmtAccusation (aEpoch a) (aAccuser a) (aAccused a))
    (publicKey (deref n q))
  = (true, None).

(** The accusation [evalAccusation] builds from an incoming one, for the
    accused at [p] and the accuser at [q]. *)
Definition accusationFrom n (a : Accusation) (p q : loc) : accusation :=
  {| acc_peerId := p_peerId (deref n p);
     acc_epoch := aEpoch a;
     accuser := p_peerId (deref n q);
     acc_signature := {| r := GetR (aSignature a); s := GetS (aSignature a) |} |}.

(** Every note stored in [n] is still stored in [n'], at its epoch or a
    greater one. *)
Definition notesKept n n' : Prop :=
  ∀ p e, storedEpoch n p = Some e →
         ∃ e', storedEpoch n' p = Some e' ∧ e ≤ e'.

(** How the maps of a node hang together: every key of the view map leads
    to a peer object that carries that key, the live map is a part of the
    view map, timeouts are kept for keys of the view only, and a peer of
    the view has a timeout exactly when it has an accusation. *)
Definition consistentMaps (h : gmap loc peer) (v l : gmap string loc)
    (t : gmap string timeout) : Prop :=
  (∀ k p, v !! k = Some p → ∃ P, h !! p = Some P ∧ key P = k)
  ∧ (∀ k p, l !! k = Some p → v !! k = Some p)
  ∧ (∀ k, is_Some (t !! k) → is_Some (v !! k))
  ∧ (∀ k p P, v !! k = Some p → h !! p = Some P →
              (is_Some (p_accusation P) ↔ is_Some (t !! k))).

Definition consistent n : Prop :=
  consistentMaps (heap n) (viewMap n) (liveMap n) (timeoutMap n).

(** The same, as a check that runs. *)
Definition consistentb n : bool :=
  bool_decide (map_Forall (λ k p, key <$> heap n !! p = Some k) (viewMap n))
  && bool_decide (map_Forall (λ k p, viewMap n !! k = Some p) (liveMap n))
  && bool_decide (map_Forall (λ k (_ : timeout), is_Some (viewMap n !! k))
                    (timeoutMap n))
  && bool_decide
       (map_Forall (λ k p, bool_decide (is_Some (p_accusation (deref n p)))
                           = bool_decide (is_Some (timeoutMap n !! k)))
          (viewMap n)).

(** A run of [evalAccusation] (resp. [evalNote]) calls with the exit
    each call took. *)
Fixpoint evalAccusations n (accs : list Accusation)
  : Node R * list accusation_verdict :=
  match accs with
  | [] => (n, [])
  | a :: accs' =>
      let '(n1, v) := evalAccusation n a in
      let '(n2, vs) := evalAccusations n1 accs' in
      (n2, v :: vs)
  end.

Fixpoint evalNotes n (notes : list Note) : Node R * list note_verdict :=
  match notes with
  | [] => (n, [])
  | g :: notes' =>
      let '(n1, v) := evalNote n g in
      let '(n2, vs) := evalNotes n1 notes' in
      (n2, v :: vs)
  end.

End WithEnv.
End Node.

(* --------------------------------------------------------------------- *)
(** ** A small world to run the server in                                 *)
(* --------------------------------------------------------------------- *)

Module World.
Import Node.

(** The ring set reduced to the answers it gives: who outranks whom, who
    precedes whom, who is a neighbour of the local node, and whom a caller
    should know.  Adding a live peer leaves the answers as they are. *)
Record topology : Type :=
  { higher : string → string → bool;
    prev : string → string → bool;
    neighbour : string → bool;
    neighboursOf : string → list string }.

(** A stand-in signature scheme: the signature of a peer on any payload
    is [r] = its public key, and an [r] starting with "!" makes the
    verifier itself fail. *)
#[global] Instance env : Env topology :=
  {| ring_add := λ _ t, t;
     isHigherRank := λ t a b, higher t (id a) (id b);
     isPrev := λ t a b, prev t (key a) (key b);
     shouldBeNeighbours := λ t k, neighbour t k;
     findNeighbours := λ t k, neighboursOf t k;
     validateSignature := λ r s b pk,
       if String.prefix "!" r then (false, Some (otherError "verify"))
       else (String.eqb r pk, None);
     signNote := λ pid e, {| r := id pid; s := EmptyString |};
     fmtNote := λ e i, i;
     fmtAccusation := λ e accuser accused, (accuser +:+ accused)%string;
     ParseCertificate := λ raw,
       Some {| SubjectKeyId := raw; Locality := [raw]; PublicKey := raw;
               certRaw := raw |};
     newPeerError := λ _, None;
     setAccusationError := λ _ _, None |}.

Definition certOf (k : string) : x509Certificate :=
  {| SubjectKeyId := k; Locality := [k]; PublicKey := k; certRaw := k |}.

Definition noteOf (k : string) (e : Z) : note :=
  {| note_peerId := PeerId k; epoch := e;
     note_signature := {| r := k; s := EmptyString |} |}.

Definition peerOf (k : string) (nt : option note) (a : option accusation) : peer :=
  {| p_peerId := PeerId k; key := k; addr := k; publicKey := k;
     cert := certOf k; recentNote := nt; p_accusation := a |}.

(** The note and the accusation a peer sends, signed by it. *)
Definition sendNote (k : string) (e : Z) : Note :=
  {| nEpoch := e; nId := k;
     nSignature := {| GetR := k; GetS := EmptyString |} |}.

Definition accuse (accuserK accusedK : string) (e : Z) : Accusation :=
  {| aEpoch := e; aAccuser := accuserK; aAccused := accusedK;
     aSignature := {| GetR := accuserK; GetS := EmptyString |} |}.

(** Ring 0 holds A < D < B < C (the local node is "01" and sits
    elsewhere): C and D may both act as predecessor of B, and D is the
    closer one. *)
Definition ringADBC : topology :=
  {| higher := λ a b, String.eqb a "D" && String.eqb b "C";
     prev := λ a b, String.eqb b "B" && (String.eqb a "C" || String.eqb a "D");
     neighbour := λ k, String.eqb k "A";
     neighboursOf := λ k, ["A"; "B"; "Z"] |}.

(** A node "01" at epoch [e] that knows A, B, C and D, all live, at the
    addresses 0..3; B carries the note [ntB] and the accusation [accB]. *)
Definition node (e : Z) (ntB : option note) (accB : option accusation)
    (timers : gmap string timeout) : Node topology :=
  {| peerId_ := PeerId "01";
     recentNote_ := noteOf "01" e;
     localAddr := "01";
     heap := {[ 0%nat := peerOf "A" (Some (noteOf "A" 1)) None;
                1%nat := peerOf "B" ntB accB;
                2%nat := peerOf "C" (Some (noteOf "C" 1)) None;
                3%nat := peerOf "D" (Some (noteOf "D" 1)) None ]};
     viewMap := {[ "A" := 0%nat; "B" := 1%nat; "C" := 2%nat; "D" := 3%nat ]};
     liveMap := {[ "A" := 0%nat; "B" := 1%nat; "C" := 2%nat; "D" := 3%nat ]};
     timeoutMap := timers;
     rings := ringADBC;
     rebuttals := [] |}.

Definition accusationBy (accuserK : string) (e : Z) : accusation :=
  {| acc_peerId := PeerId "B"; acc_epoch := e; accuser := PeerId accuserK;
     acc_signature := {| r := accuserK; s := EmptyString |} |}.

(** A timeout entry for B, observed by C, and a gossip message with
    nothing in it. *)
Definition timerB : timeout :=
  {| observer := 2%nat; lastNote := Some (noteOf "B" 6); t_addr := "B" |}.

Definition emptyMsg : GossipMsg :=
  {| Certificates := []; Notes := []; Accusations := [] |}.

End World.

(* ===================================================================== *)
(** * Part II. Theorems                                                   *)
(* ===================================================================== *)

Module SortFacts.
Import Go Sort.

Lemma index_Some {A} (l : list A) (i : Z) (x : A) :
  index l i = Some x ↔ 0 ≤ i ∧ l !! Z.to_nat i = Some x.
Proof.
  unfold index. case_bool_decide; split; intros; try tauto; try done.
Qed.

Lemma index_in_range {A} (l : list A) (i : Z) :
  0 ≤ i < len l → ∃ x, index l i = Some x.
Proof.
  unfold len. intros Hi.
  destruct (lookup_lt_is_Some_2 l (Z.to_nat i)) as [x Hx]; [lia|].
  exists x. apply index_Some. split; [lia|done].
Qed.

Lemma index_nil {A} (i : Z) : index (@nil A) i = None.
Proof. unfold index. case_bool_decide; done. Qed.

Lemma cmpId_lt x y : cmpId x y = -1 ↔ id x < id y.
Proof.
  unfold cmpId. destruct (Z.compare_spec (id x) (id y)); split; intros; try done; lia.
Qed.

Lemma cmpId_eq x y : cmpId x y = 0 ↔ id x = id y.
Proof.
  unfold cmpId. destruct (Z.compare_spec (id x) (id y)); split; intros; try done; lia.
Qed.

Lemma cmpId_gt x y : cmpId x y = 1 ↔ id y < id x.
Proof.
  unfold cmpId. destruct (Z.compare_spec (id x) (id y)); split; intros; try done; lia.
Qed.

Lemma cmpId_eq_same x y : cmpId x y = 0 ↔ x = y.
Proof.
  rewrite cmpId_eq. destruct x, y; simpl. split; congruence.
Qed.

Lemma mid_bounds (currIdx maxIdx : Z) :
  0 ≤ currIdx → currIdx < maxIdx →
  currIdx ≤ (currIdx + maxIdx) `quot` 2 < maxIdx.
Proof.
  intros. rewrite Z.quot_div_nonneg by lia.
  split; [apply Z.div_le_lower_bound | apply Z.div_lt_upper_bound]; lia.
Qed.

Lemma cmpId_cases x y : cmpId x y = -1 ∨ cmpId x y = 0 ∨ cmpId x y = 1.
Proof. unfold cmpId. destruct (id x ?= id y); auto. Qed.

(** Inside a non-empty slice the loop of [search] stays in bounds and
    comes back before its fuel is spent. *)
Lemma search_loop_returns fuel l s currIdx maxIdx :
  0 ≤ currIdx < len l → maxIdx < len l → currIdx ≤ maxIdx + 1 →
  (Z.to_nat (maxIdx - currIdx) < fuel)%nat →
  ∃ r, search_loop fuel l s currIdx maxIdx = Returns r ∧ search_sound l s r.
Proof.
  revert currIdx maxIdx.
  induction fuel as [|fuel IH]; intros currIdx maxIdx Hc Hm Hcm Hf; [lia|].
  simpl. case_bool_decide as Hge.
  - destruct (index_in_range l currIdx) as [x Hx]; [lia|]. rewrite Hx.
    destruct (cmpId x s =? 0) eqn:E.
    + eexists; split; [done|]. right. exists currIdx, x.
      split_and!; [done|done|lia].
    + eexists; split; [done|]. by left.
  - pose proof (mid_bounds currIdx maxIdx ltac:(lia) ltac:(lia)) as Hmid.
    set (mid := (currIdx + maxIdx) `quot` 2) in *.
    destruct (index_in_range l mid) as [x Hx]; [lia|]. rewrite Hx.
    destruct (cmpId x s =? -1) eqn:E1; [apply IH; lia|].
    destruct (cmpId x s =? 1) eqn:E2; [apply IH; lia|].
    eexists; split; [done|]. right. exists mid, x. split_and!; [done|done|].
    destruct (cmpId_cases x s) as [?|[?|?]]; lia.
Qed.

Lemma search_returns l s :
  l ≠ [] → ∃ r, search l s = Returns r ∧ search_sound l s r.
Proof.
  intros Hl. unfold search. apply search_loop_returns; unfold len.
  - destruct l; [done|]. simpl length. lia.
  - lia.
  - lia.
  - lia.
Qed.

Lemma search_nil s : search [] s = Panics.
Proof. reflexivity. Qed.

(** An id that is nowhere in a non-empty slice is reported missing. *)
Lemma search_absent l s :
  l ≠ [] → absent s l → search l s = Returns (-1, Some errIdNotFound).
Proof.
  intros Hl Habs. destruct (search_returns l s Hl) as (r & -> & [->|Hr]); [done|].
  destruct Hr as (i & x & -> & Hx & Hcmp).
  apply index_Some in Hx as [_ Hx].
  exfalso. apply (Habs x); [|done]. by eapply list_elem_of_lookup_2.
Qed.

(** ** [insert] *)

Lemma insert_at_lookup k new (l : list ringId) (i : nat) :
  (k ≤ length l)%nat →
  insert_at k new l !! i =
    if decide (i < k)%nat then l !! i
    else if decide (i = k) then Some new else l !! (i - 1)%nat.
Proof.
  intros Hk. unfold insert_at.
  destruct (decide (i < k)%nat) as [Hlt|Hge].
  - rewrite lookup_app_l by (rewrite length_take; lia).
    by rewrite lookup_take_lt.
  - rewrite lookup_app_r by (rewrite length_take; lia).
    rewrite length_take, Nat.min_l by lia.
    destruct (decide (i = k)) as [->|Hne].
    + by rewrite Nat.sub_diag.
    + destruct (i - k)%nat as [|d] eqn:E; [lia|]. simpl.
      rewrite lookup_drop. f_equal. lia.
Qed.

Lemma insert_at_length k new (l : list ringId) :
  (k ≤ length l)%nat → length (insert_at k new l) = S (length l).
Proof.
  intros. unfold insert_at.
  rewrite length_app, length_take; simpl. rewrite length_drop. lia.
Qed.

Lemma insert_here_spec (l : list ringId) new currIdx x :
  index l currIdx = Some x →
  let k := Z.to_nat (if cmpId x new =? -1 then currIdx + 1 else currIdx) in
  insert_here l new currIdx = Returns (insert_at k new l, Z.of_nat k)
  ∧ (k ≤ length l)%nat.
Proof.
  intros Hx. unfold insert_here. rewrite Hx.
  apply index_Some in Hx as [H0 Hx].
  pose proof (lookup_lt_Some _ _ _ Hx) as Hlen.
  set (c := Z.to_nat currIdx) in *.
  assert (Hdrop : drop c l = x :: drop (S c) l) by (by apply drop_S).
  destruct (cmpId x new =? -1) eqn:E; simpl.
  - replace (Z.to_nat (currIdx + 1)) with (S c) by lia.
    split; [|lia]. f_equal. f_equal; [|lia].
    unfold insert_at. rewrite Hdrop.
    rewrite (take_S_r l c x Hx), <- (assoc_L (++)). simpl.
    rewrite insert_app_r_alt by (rewrite length_take; lia).
    rewrite length_take, Nat.min_l by lia.
    by replace (S c - c)%nat with 1%nat by lia.
  - fold c. split; [|lia]. f_equal. f_equal; [|lia].
    unfold insert_at.
    rewrite insert_app_r_alt by (rewrite length_take; lia).
    rewrite length_take, Nat.min_l by lia.
    by rewrite Nat.sub_diag.
Qed.

(** The loop of [insert] on a non-empty ascending slice: it returns, and
    the place it picks is the insertion point. *)

Lemma insert_loop_spec fuel (l : list ringId) new currIdx maxIdx :
  ascending l →
  0 ≤ currIdx < len l → maxIdx < len l → currIdx ≤ maxIdx + 1 →
  (Z.to_nat (maxIdx - currIdx) < fuel)%nat →
  (∀ (i : nat) x, l !! i = Some x → Z.of_nat i < currIdx → id x < id new) →
  (∀ (i : nat) x, l !! i = Some x → maxIdx < Z.of_nat i → id new ≤ id x) →
  ∃ k, insert_loop fuel l new currIdx maxIdx
         = Returns (insert_at k new l, Z.of_nat k)
       ∧ insertion_point l new k.
Proof.
  intros Hasc. revert currIdx maxIdx.
  induction fuel as [|fuel IH]; intros currIdx maxIdx Hc Hm Hcm Hf Hlo Hhi; [lia|].
  simpl. case_bool_decide as Hge.
  - destruct (index_in_range l currIdx) as [x Hx]; [lia|].
    destruct (insert_here_spec l new currIdx x Hx) as [Heq Hk].
    eexists; split; [exact Heq|]. split; [done|].
    apply index_Some in Hx as [_ Hx].
    destruct (cmpId x new =? -1) eqn:E.
    + apply Z.eqb_eq, cmpId_lt in E. split.
      * intros i y Hy Hi.
        destruct (decide (i = Z.to_nat currIdx)) as [->|]; [by simplify_eq|].
        apply (Hlo i y Hy). lia.
      * intros i y Hy Hi. apply (Hhi i y Hy). lia.
    + apply Z.eqb_neq in E. rewrite cmpId_lt in E. split.
      * intros i y Hy Hi. apply (Hlo i y Hy). lia.
      * intros i y Hy Hi.
        pose proof (Hasc _ _ _ _ Hx Hy ltac:(lia)). lia.
  - pose proof (mid_bounds currIdx maxIdx ltac:(lia) ltac:(lia)) as Hmid.
    set (mid := (currIdx + maxIdx) `quot` 2) in *.
    destruct (index_in_range l mid) as [x Hx]; [lia|]. rewrite Hx.
    apply index_Some in Hx as [_ Hx].
    destruct (cmpId x new =? -1) eqn:E.
    + apply Z.eqb_eq, cmpId_lt in E.
      apply IH; try lia; [|done].
      intros i y Hy Hi.
      pose proof (Hasc _ _ _ _ Hy Hx ltac:(lia)). lia.
    + apply Z.eqb_neq in E. rewrite cmpId_lt in E.
      apply IH; try lia; [done|].
      intros i y Hy Hi.
      pose proof (Hasc _ _ _ _ Hx Hy ltac:(lia)). lia.
Qed.

Lemma insert_spec (l : list ringId) new :
  ascending l →
  ∃ k, insert l new = Returns (insert_at k new l, Z.of_nat k)
       ∧ insertion_point l new k.
Proof.
  intros Hasc. unfold insert.
  destruct (len l - 1 =? -1) eqn:E.
  - apply Z.eqb_eq in E.
    assert (l = []) as -> by (destruct l; [done|]; unfold len in E; simpl in E; lia).
    exists 0%nat. split; [done|]. split_and!; [done|..]; intros i x Hx; done.
  - apply Z.eqb_neq in E.
    apply insert_loop_spec; unfold len in *; try lia; try done.
    intros i x Hx Hi. apply lookup_lt_Some in Hx. lia.
Qed.

(** Whatever the order of the slice, [insert] stays in bounds and comes
    back before its fuel is spent. *)
Lemma insert_loop_returns fuel (l : list ringId) new currIdx maxIdx :
  0 ≤ currIdx < len l → maxIdx < len l → currIdx ≤ maxIdx + 1 →
  (Z.to_nat (maxIdx - currIdx) < fuel)%nat →
  ∃ r, insert_loop fuel l new currIdx maxIdx = Returns r.
Proof.
  revert currIdx maxIdx.
  induction fuel as [|fuel IH]; intros currIdx maxIdx Hc Hm Hcm Hf; [lia|].
  simpl. case_bool_decide as Hge.
  - destruct (index_in_range l currIdx) as [x Hx]; [lia|].
    destruct (insert_here_spec l new currIdx x Hx) as [-> _]. eauto.
  - pose proof (mid_bounds currIdx maxIdx ltac:(lia) ltac:(lia)) as Hmid.
    set (mid := (currIdx + maxIdx) `quot` 2) in *.
    destruct (index_in_range l mid) as [x Hx]; [lia|]. rewrite Hx.
    destruct (cmpId x new =? -1); apply IH; lia.
Qed.

Lemma insert_returns (l : list ringId) new : ∃ r, insert l new = Returns r.
Proof.
  unfold insert. destruct (len l - 1 =? -1) eqn:E; [eauto|].
  apply Z.eqb_neq in E. apply insert_loop_returns; unfold len in *; lia.
Qed.

Lemma strictly_increasing_ascending l : strictly_increasing l → ascending l.
Proof.
  intros Hs i j x y Hx Hy Hij.
  destruct (decide (i = j)) as [->|]; [by simplify_eq|].
  pose proof (Hs i j x y Hx Hy ltac:(lia)). lia.
Qed.

Lemma strictly_increasing_no_duplicate l :
  strictly_increasing l → no_duplicate_id l.
Proof.
  intros Hs i j x y Hx Hy Hc. apply cmpId_eq in Hc.
  destruct (Nat.lt_trichotomy i j) as [Hlt|[->|Hgt]]; [|done|].
  - pose proof (Hs _ _ _ _ Hx Hy Hlt). lia.
  - pose proof (Hs _ _ _ _ Hy Hx Hgt). lia.
Qed.

Lemma strictly_increasingb_spec l :
  strictly_increasingb l = true ↔ strictly_increasing l.
Proof.
  induction l as [|a [|b l] IH].
  - split; [|done]. intros _ i j x y Hx; done.
  - split; [|done]. intros _ [|i] [|j] x y Hx Hy Hij; try done; lia.
  - change (strictly_increasingb (a :: b :: l))
      with ((id a <? id b) && strictly_increasingb (b :: l)).
    rewrite andb_true_iff, Z.ltb_lt, IH. split.
    + intros [Hab Hs] [|i] [|j] x y Hx Hy Hij; simpl in *; simplify_eq; try lia.
      * destruct j as [|j]; simpl in *; simplify_eq; [done|].
        pose proof (Hs 0%nat (S j) b y eq_refl Hy ltac:(lia)). lia.
      * apply (Hs i j x y Hx Hy). lia.
    + intros Hs. split.
      * apply (Hs 0%nat 1%nat a b); [done|done|lia].
      * intros i j x y Hx Hy Hij. apply (Hs (S i) (S j) x y); [done|done|lia].
Qed.

Lemma absentb_spec s l : absentb s l = true ↔ absent s l.
Proof.
  unfold absentb, absent. rewrite forallb_forall. split.
  - intros H x Hx. apply list_elem_of_In, H in Hx.
    apply negb_true_iff, Z.eqb_neq in Hx. done.
  - intros H x Hx. apply list_elem_of_In, H in Hx.
    by apply negb_true_iff, Z.eqb_neq.
Qed.

(** Putting a fresh id at its insertion point keeps the ring order
    strict. *)
Lemma insert_at_strictly_increasing l new k :
  strictly_increasing l → absent new l → insertion_point l new k →
  strictly_increasing (insert_at k new l).
Proof.
  intros Hs Habs (Hk & Hlo & Hhi) i j x y Hx Hy Hij.
  rewrite insert_at_lookup in Hx, Hy by done.
  assert (Hhi' : ∀ (i : nat) z, l !! i = Some z → (k ≤ i)%nat → id new < id z).
  { intros n z Hz Hn. pose proof (Hhi n z Hz Hn).
    assert (id z ≠ id new); [|lia].
    rewrite <- cmpId_eq. apply Habs. by eapply list_elem_of_lookup_2. }
  repeat case_decide; simplify_eq; try lia.
  - by apply (Hs i j).
  - by apply (Hlo i).
  - pose proof (Hlo i x Hx ltac:(lia)).
    pose proof (Hhi' _ y Hy ltac:(lia)). lia.
  - apply (Hhi' _ y Hy). lia.
  - apply (Hs (i - 1)%nat (j - 1)%nat); [done|done|lia].
Qed.

Lemma insert_at_elem_of k new l x :
  x ∈ insert_at k new l → x = new ∨ x ∈ l.
Proof.
  unfold insert_at. rewrite elem_of_app, elem_of_cons.
  intros [H|[->|H]]; [right|by left|right];
    rewrite <- (take_drop k l); apply elem_of_app; auto.
Qed.

(** ** [search] after [insert] *)

Lemma search_loop_finds fuel (l : list ringId) s currIdx maxIdx (k : nat) y :
  ascending l → l !! k = Some y → id y = id s →
  0 ≤ currIdx → maxIdx < len l → currIdx ≤ Z.of_nat k ≤ maxIdx →
  (Z.to_nat (maxIdx - currIdx) < fuel)%nat →
  ∃ i x, search_loop fuel l s currIdx maxIdx = Returns (i, None)
         ∧ index l i = Some x ∧ cmpId x s = 0.
Proof.
  intros Hasc Hy Hys. revert currIdx maxIdx.
  induction fuel as [|fuel IH]; intros currIdx maxIdx Hc Hm Hk Hf; [lia|].
  simpl. case_bool_decide as Hge.
  - assert (currIdx = Z.of_nat k) as -> by lia.
    assert (Hi : index l (Z.of_nat k) = Some y).
    { apply index_Some. rewrite Nat2Z.id. split; [lia|done]. }
    rewrite Hi. apply cmpId_eq in Hys as Hc0. rewrite Hc0. simpl. eauto.
  - pose proof (mid_bounds currIdx maxIdx ltac:(lia) ltac:(lia)) as Hmid.
    set (mid := (currIdx + maxIdx) `quot` 2) in *.
    destruct (index_in_range l mid) as [x Hx]; [lia|]. rewrite Hx.
    apply index_Some in Hx as Hx'. destruct Hx' as [_ Hx'].
    destruct (cmpId x s =? -1) eqn:E1.
    { apply Z.eqb_eq, cmpId_lt in E1. apply IH; try lia.
      destruct (decide (Z.of_nat k ≤ mid)); [|lia].
      pose proof (Hasc _ _ _ _ Hy Hx' ltac:(lia)). lia. }
    destruct (cmpId x s =? 1) eqn:E2.
    { apply Z.eqb_eq, cmpId_gt in E2. apply IH; try lia.
      destruct (decide (mid ≤ Z.of_nat k)); [|lia].
      pose proof (Hasc _ _ _ _ Hx' Hy ltac:(lia)). lia. }
    exists mid, x. split_and!; [done|done|].
    destruct (cmpId_cases x s) as [?|[?|?]]; lia.
Qed.

(** On a ring slice (strict order) [search] returns the one index that
    holds the id. *)
Lemma search_finds (l : list ringId) s (k : nat) :
  strictly_increasing l → l !! k = Some s →
  search l s = Returns (Z.of_nat k, None).
Proof.
  intros Hs Hk. pose proof (lookup_lt_Some _ _ _ Hk) as Hlen.
  destruct (search_loop_finds (S (length l)) l s 0 (len l - 1) k s)
    as (i & x & Heq & Hx & Hc); unfold len in *; try lia; try done.
  { by apply strictly_increasing_ascending. }
  unfold search. fold (len l). unfold len. rewrite Heq.
  apply index_Some in Hx as [Hi Hx].
  pose proof (strictly_increasing_no_duplicate l Hs _ _ _ _ Hx Hk Hc) as <-.
  do 2 f_equal. lia.
Qed.

Lemma insert_fresh (l : list ringId) new :
  strictly_increasing l → absent new l →
  ∃ k, insert l new = Returns (insert_at k new l, Z.of_nat k)
       ∧ (k ≤ length l)%nat
       ∧ strictly_increasing (insert_at k new l).
Proof.
  intros Hs Habs.
  destruct (insert_spec l new) as (k & Heq & Hip);
    [by apply strictly_increasing_ascending|].
  exists k. split_and!; [done|by destruct Hip|].
  by apply insert_at_strictly_increasing.
Qed.

(** Insert-then-search on a ring slice: [search] reports the index that
    [insert] reported, with a nil error. *)
Lemma insert_then_search (l : list ringId) new :
  strictly_increasing l → absent new l →
  ∃ l' idx, insert l new = Returns (l', idx)
            ∧ search l' new = Returns (idx, None).
Proof.
  intros Hs Habs. destruct (insert_fresh l new Hs Habs) as (k & Heq & Hk & Hs').
  exists (insert_at k new l), (Z.of_nat k). split; [done|].
  apply search_finds; [done|].
  rewrite insert_at_lookup by done. repeat case_decide; try lia; done.
Qed.

Lemma delete_absent (l : list ringId) (k : nat) s :
  strictly_increasing l → l !! k = Some s → absent s (delete k l).
Proof.
  intros Hs Hk x Hx Hc.
  apply list_elem_of_lookup in Hx as [j Hj].
  apply strictly_increasing_no_duplicate in Hs.
  destruct (decide (j < k)%nat).
  - rewrite list_lookup_delete_lt in Hj by done.
    pose proof (Hs _ _ _ _ Hj Hk Hc). lia.
  - rewrite list_lookup_delete_ge in Hj by lia.
    pose proof (Hs _ _ _ _ Hj Hk Hc). lia.
Qed.

(** Remove-then-search on a ring slice that keeps at least one entry. *)
Lemma remove_then_search (l : list ringId) (k : nat) s :
  strictly_increasing l → l !! k = Some s → (1 < length l)%nat →
  ∃ l', remove l s = Returns (l', None)
        ∧ search l' s = Returns (-1, Some errIdNotFound).
Proof.
  intros Hs Hk Hlen. exists (delete k l). split.
  - unfold remove. rewrite (search_finds l s k Hs Hk). simpl.
    by rewrite Nat2Z.id.
  - apply search_absent; [|by apply delete_absent].
    intros Hnil. apply (f_equal length) in Hnil.
    rewrite length_delete in Hnil by eauto. simpl in Hnil. lia.
Qed.

Lemma insert_all_fresh (ids l : list ringId) :
  strictly_increasing l → NoDup ids → Forall (λ x, absent x l) ids →
  ∃ l', insert_all l ids = Returns l' ∧ strictly_increasing l'.
Proof.
  revert l. induction ids as [|x ids IH]; intros l Hs Hnd Hfresh.
  - by exists l.
  - apply NoDup_cons in Hnd as [Hx Hnd].
    apply Forall_cons in Hfresh as [Habs Hfresh].
    destruct (insert_fresh l x Hs Habs) as (k & Heq & Hk & Hs').
    simpl. rewrite Heq. simpl. apply IH; [done|done|].
    apply Forall_forall. intros y Hy z Hz Hc.
    apply insert_at_elem_of in Hz as [->|Hz].
    + apply cmpId_eq_same in Hc. by subst.
    + rewrite Forall_forall in Hfresh. by apply (Hfresh y Hy z).
Qed.

(** ** The claims about sort.go *)

(** C7 (as the claim states it, refuted): [insert] has no guard against an
    id that is already in the slice.  Inserting position 5 into the ring
    slice [5] returns [5; 5]: the id is there twice and the order is no
    longer strict. *)
Lemma insert_existing_id_duplicates :
  strictly_increasing [RingId 5]
  ∧ insert_all [RingId 5] [RingId 5] = Returns [RingId 5; RingId 5]
  ∧ ¬ strictly_increasing [RingId 5; RingId 5]
  ∧ ¬ no_duplicate_id [RingId 5; RingId 5].
Proof.
  split_and!.
  - by apply strictly_increasingb_spec.
  - reflexivity.
  - intros H. specialize (H 0%nat 1%nat (RingId 5) (RingId 5) eq_refl eq_refl).
    simpl in H. lia.
  - intros H. by specialize (H 0%nat 1%nat (RingId 5) (RingId 5) eq_refl eq_refl eq_refl).
Qed.

(** C7 (amended): for every ring slice in strictly increasing position
    order and every sequence of [insert] calls whose ids are pairwise
    distinct and not yet in the slice, every call returns and the resulting
    slice holds each id at most once, in strictly increasing position
    order under [cmpId]. *)
Theorem insert_all_fresh_keeps_ring_order (l ids : list ringId) :
  strictly_increasing l → NoDup ids → Forall (λ x, absent x l) ids →
  ∃ l', insert_all l ids = Returns l'
        ∧ strictly_increasing l' ∧ no_duplicate_id l'.
Proof.
  intros Hs Hnd Hfresh.
  destruct (insert_all_fresh ids l Hs Hnd Hfresh) as (l' & Heq & Hs').
  exists l'. split_and!; [done|done|].
  by apply strictly_increasing_no_duplicate.
Qed.

Lemma insert_all_fresh_keeps_ring_order_witness :
  ∃ l', insert_all [RingId 2; RingId 7] [RingId 9; RingId 1; RingId 4]
          = Returns l'
        ∧ strictly_increasing l' ∧ no_duplicate_id l'.
Proof.
  apply insert_all_fresh_keeps_ring_order.
  - apply strictly_increasingb_spec. reflexivity.
  - apply NoDup_ListNoDup. repeat constructor; simpl; intuition congruence.
  - repeat constructor; apply absentb_spec; reflexivity.
Defined.

(** C8, at the input where the code departs from the claim: removing the
    only id of a ring slice leaves the empty slice, and [search] on the
    empty slice indexes [slice[0]] and panics instead of returning
    [errIdNotFound]. *)
Theorem search_after_removing_last_id_panics :
  remove [RingId 5] (RingId 5) = Returns ([], None)
  ∧ search [] (RingId 5) = Panics.
Proof. split; reflexivity. Qed.

(** C9: [search] reads [slice[currIdx]] once [currIdx >= maxIdx] without
    looking at the length.  On every non-empty slice all its index
    accesses are in bounds and it returns (a sound result, within the
    fuel); on the empty slice the first access, [slice[0]], is out of
    bounds and it panics.  So [search] is total exactly on non-empty
    slices. *)
Theorem search_in_bounds_iff_nonempty (l : list ringId) (s : ringId) :
  (l ≠ [] ↔ ∃ r, search l s = Returns r ∧ search_sound l s r)
  ∧ (l = [] ↔ search l s = Panics)
  ∧ index (@nil ringId) 0 = None.
Proof.
  split_and!; [| |done].
  - split; [apply search_returns|].
    intros (r & Hr & _) ->. by rewrite search_nil in Hr.
  - split; [by intros ->|].
    intros Hp. destruct l as [|a l]; [done|].
    destruct (search_returns (a :: l) s) as (r & Hr & _); [done|].
    congruence.
Qed.

End SortFacts.

Module GossipFacts.
Import Gossip.

(** Whatever the reader does, nothing it supplied reaches the map: the
    map is left alone or gets the empty byte string under [id]. *)
Lemma AppendGossipData_never_stores_data (n : Node) id data :
  (AppendGossipData n id data).1 = n
  ∨ (AppendGossipData n id data).1
      = {| gossipDataMap := <[id := EmptyString]> (gossipDataMap n) |}.
Proof.
  unfold AppendGossipData.
  destruct (Read data _) as [[written numRead] [e|]]; simpl; [by left|].
  destruct (numRead <=? 0); simpl; [by left|right].
  by destruct written.
Qed.

(** C10: [AppendGossipData] reads into the nil buffer, so a reader that
    keeps the [io.Reader] contract reports no byte read; the call returns
    a non-nil error, the reader's own or [errNoData], and
    [gossipDataMap] is unchanged. *)
Theorem AppendGossipData_always_fails (n : Node) (id : string) (data : Reader) :
  io_Reader_contract data →
  ∃ e, AppendGossipData n id data = (n, Some e)
       ∧ (e = errNoData ∨ (Read data 0).2 = Some e).
Proof.
  intros Hc. specialize (Hc 0%nat). unfold AppendGossipData. simpl in *.
  destruct (Read data 0) as [[written numRead] [e|]]; simpl in *.
  - exists e. auto.
  - exists errNoData. split; [|by left].
    destruct (numRead <=? 0) eqn:E; [done|]. apply Z.leb_gt in E. lia.
Qed.

(** Outside the contract: a reader that reports a byte for the empty
    buffer gets the empty byte string stored, still none of its data. *)
Lemma AppendGossipData_lying_reader :
  AppendGossipData {| gossipDataMap := ∅ |} "k" lyingReader
  = ({| gossipDataMap := {[ "k" := EmptyString ]} |}, None).
Proof. reflexivity. Qed.

Lemma AppendGossipData_always_fails_witness :
  ∃ e, AppendGossipData {| gossipDataMap := ∅ |} "k" (payloadReader "abc")
         = ({| gossipDataMap := ∅ |}, Some e)
       ∧ (e = errNoData ∨ (Read (payloadReader "abc") 0).2 = Some e).
Proof.
  apply AppendGossipData_always_fails.
  intros lenp. simpl. lia.
Defined.

End GossipFacts.

Module NodeFacts.
Import Go Node World.

Section Facts.
Context {R : Type} `{!Env R}.
Implicit Types (n : Node R) (p : loc).

(** ** Self-accusation (rebuttal) *)




(** No setter at all could make [setEpoch(epoch + 1)] yield
    max(currentEpoch, epoch) + 1 on every uint64 input: at the largest
    epoch the argument has already wrapped to 0. *)
Lemma no_setter_gives_max_plus_one (f : Z → Z → Z) :
  (∀ cur arg, is_uint64 (f cur arg)) →
  ¬ ∀ cur e, is_uint64 cur → is_uint64 e →
             f cur (wrap64 (e + 1)) = Z.max cur e + 1.
Proof.
  intros Hrange Hmax.
  specialize (Hmax 0 (uint64_mod - 1)).
  specialize (Hrange 0 (wrap64 (uint64_mod - 1 + 1))).
  unfold is_uint64, uint64_mod in *. lia.
Qed.

(** ** Staleness of an accusation *)

(** C3 (amended): an accusation against a peer other than the local node
    is dropped when the accused is not in the live map; for an accused
    in the live map it is dropped as stale iff the accused has a note
    whose epoch is greater than or equal to the accusation's epoch (so
    an accusation at the epoch of the accused's note is dropped), and a
    stale accusation changes nothing. *)
Theorem accusation_stale_iff n (a : Accusation) :
  id (peerId_ n) ≠ aAccused a →
  match getLivePeer n (aAccused a) with
  | None => evalAccusation n a = (n, AccusedNotLive)
  | Some p =>
      ((evalAccusation n a).2 = Stale
       ↔ ∃ pn, getNote (deref n p) = Some pn ∧ aEpoch a ≤ epoch pn)
      ∧ ((evalAccusation n a).2 = Stale → (evalAccusation n a).1 = n)
  end.
Proof.
  intros Hne. unfold evalAccusation, equal. simpl.
  rewrite bool_decide_eq_false_2 by done.
  destruct (getLivePeer n (aAccused a)) as [p|]; [|done].
  destruct (getNote (deref n p)) as [pn|] eqn:Hn.
  - destruct (aEpoch a >? epoch pn) eqn:E.
    + split; [split|].
      * intros Hv. exfalso. revert Hv.
        repeat (case_match; simpl; try done).
      * intros (pn' & [= <-] & Hle). lia.
      * intros Hv. exfalso. revert Hv.
        repeat (case_match; simpl; try done).
    + simpl. split; [|done]. split; [|done].
      intros _. exists pn. split; [done|lia].
  - split; [split|].
    + intros Hv. exfalso. revert Hv.
      repeat (case_match; simpl; try done).
    + by intros (pn' & [=] & _).
    + intros Hv. exfalso. revert Hv.
      repeat (case_match; simpl; try done).
Qed.

(** ** Notes *)

Lemma deref_set_heap n (h : gmap loc peer) p : deref (set_heap n h) p = h !!! p.
Proof. done. Qed.

Lemma lookup_total_alter_Some (h : gmap loc peer) (f : peer → peer) p P :
  h !! p = Some P → alter f p h !!! p = f P.
Proof.
  intros Hp. rewrite lookup_total_alt, lookup_alter_eq, Hp. done.
Qed.

Lemma lookup_total_alter_other (h : gmap loc peer) (f : peer → peer) p q :
  p ≠ q → alter f p h !!! q = h !!! q.
Proof.
  intros Hne. by rewrite !lookup_total_alt, lookup_alter_ne.
Qed.

Lemma deref_Some n p P : heap n !! p = Some P → deref n p = P.
Proof. intros Hp. unfold deref. by rewrite lookup_total_alt, Hp. Qed.

(** What [evalNote] does once the peer is known and the signature
    holds: the two branches of the source. *)
Lemma evalNote_valid n (g : Note) p :
  getViewPeer n (nId g) = Some p → validNote n g p →
  evalNote n g =
    match getAccusation (deref n p) with
    | None =>
        if match getNote (deref n p) with
           | None => true
           | Some cn => epoch cn <? nEpoch g
           end
        then
          let n1 := setNote n p (noteFrom n g p) in
          (match getLivePeer n1 (nId g) with
           | None => addLivePeer n1 p
           | Some _ => n1
           end, NoteAccepted)
        else (n, NoteNotNewer)
    | Some peerAccuse =>
        if acc_epoch peerAccuse <? nEpoch g
        then (addLivePeer (removeAccusation (deleteTimeout n (nId g)) p) p,
              NoteRebuttal)
        else (n, NoteNotRebutting)
    end.
Proof.
  intros Hp Hv. unfold evalNote, validNote in *. rewrite Hp, Hv. done.
Qed.

(** A note against an accused peer never replaces the stored note, also
    when it clears the accusation. *)
Lemma evalNote_accused_keeps_note n (g : Note) p P pa :
  getViewPeer n (nId g) = Some p → validNote n g p →
  heap n !! p = Some P → p_accusation P = Some pa →
  recentNote (deref (evalNote n g).1 p) = recentNote P.
Proof.
  intros Hp Hv HP Hpa. rewrite (evalNote_valid n g p Hp Hv).
  unfold getAccusation. rewrite (deref_Some n p P HP), Hpa.
  destruct (acc_epoch pa <? nEpoch g); simpl.
  - unfold deref at 1. simpl.
    by rewrite (lookup_total_alter_Some _ _ _ P HP).
  - by rewrite (deref_Some n p P HP).
Qed.

(** One note for a peer that is not accused. *)
Lemma evalNote_unaccused n (g : Note) p P :
  getViewPeer n (nId g) = Some p → validNote n g p →
  heap n !! p = Some P → p_accusation P = None →
  let n' := (evalNote n g).1 in
  let v := (evalNote n g).2 in
  (v = NoteAccepted
   ↔ recentNote P = None ∨ ∃ cn, recentNote P = Some cn ∧ epoch cn < nEpoch g)
  ∧ (v = NoteAccepted →
     heap n' !! p = Some (peer_setNote P (noteFrom n g p))
     ∧ viewMap n' = viewMap n
     ∧ (liveMap n !! nId g = None → liveMap n' = <[key P := p]> (liveMap n))
     ∧ (is_Some (liveMap n !! nId g) → liveMap n' = liveMap n))
  ∧ (v ≠ NoteAccepted → n' = n).
Proof.
  intros Hp Hv HP Hacc. rewrite (evalNote_valid n g p Hp Hv).
  unfold getAccusation, getNote. rewrite (deref_Some n p P HP), Hacc.
  assert (Hput : heap (setNote n p (noteFrom n g p)) !! p
                 = Some (peer_setNote P (noteFrom n g p))).
  { simpl. by rewrite lookup_alter_eq, HP. }
  assert (Hbranch :
    let n1 := setNote n p (noteFrom n g p) in
    let n' := match getLivePeer n1 (nId g) with
              | None => addLivePeer n1 p | Some _ => n1 end in
    heap n' !! p = Some (peer_setNote P (noteFrom n g p))
    ∧ viewMap n' = viewMap n
    ∧ (liveMap n !! nId g = None → liveMap n' = <[key P := p]> (liveMap n))
    ∧ (is_Some (liveMap n !! nId g) → liveMap n' = liveMap n)).
  { simpl. unfold getLivePeer. simpl.
    destruct (liveMap n !! nId g) as [q|] eqn:Hq; simpl.
    - split_and!; try done.
    - split_and!.
      + done.
      + done.
      + intros _. f_equal. unfold deref. simpl.
        by rewrite (lookup_total_alter_Some _ _ _ P HP).
      + by intros [? ?]. }
  destruct (recentNote P) as [cn|] eqn:Hcn.
  - destruct (epoch cn <? nEpoch g) eqn:E; simpl.
    + split_and!; [|by intros _|done].
      split; [|done]. intros _. right. exists cn. split; [done|lia].
    + split_and!; [|done|done].
      split; [done|]. intros [?|(cn' & [= <-] & Hlt)]; [done|lia].
  - simpl. split_and!; [|by intros _|done].
    split; [|done]. by left.
Qed.

(** *** Runs of [evalNote] *)

Lemma maxEpoch_app o es1 es2 :
  maxEpoch o (es1 ++ es2) = maxEpoch (maxEpoch o es1) es2.
Proof. unfold maxEpoch. by rewrite foldl_app. Qed.

(** [maxEpoch] is the maximum of what it is given. *)
Lemma maxEpoch_is_max o es :
  match maxEpoch o es with
  | Some m =>
      m ∈ option_list o ++ es ∧ ∀ e, e ∈ option_list o ++ es → e ≤ m
  | None => o = None ∧ es = []
  end.
Proof.
  revert o. induction es as [|e es IH]; intros o.
  - destruct o as [c|]; simpl; [|done].
    split; [by left|]. intros e' He'.
    apply list_elem_of_singleton in He' as ->. lia.
  - change (maxEpoch o (e :: es))
      with (maxEpoch (Some (from_option (Z.max e) e o)) es).
    specialize (IH (Some (from_option (Z.max e) e o))).
    destruct (maxEpoch (Some (from_option (Z.max e) e o)) es) as [m|];
      [|by destruct IH].
    destruct IH as [Hin Hle]. simpl in Hin, Hle.
    destruct o as [c|]; simpl in *.
    + split.
      * apply elem_of_cons in Hin as [->|Hin].
        -- destruct (Z.max_spec e c) as [[_ ->]|[_ ->]];
             [left|right; left].
        -- by do 2 right.
      * intros e' He'.
        assert (Z.max e c ≤ m) by (apply Hle; left).
        apply elem_of_cons in He' as [->|He']; [lia|].
        apply elem_of_cons in He' as [->|He']; [lia|].
        apply Hle. by right.
    + split; [done|]. intros e' He'. by apply Hle.
Qed.

Lemma is_Some_alter (h : gmap loc peer) (f : peer → peer) q p :
  is_Some (h !! p) → is_Some (alter f q h !! p).
Proof.
  intros [P HP]. rewrite lookup_alter.
  case_decide; subst; rewrite HP; simpl; eauto.
Qed.

Lemma storedEpoch_alter_accusation n q (a : option accusation) p :
  storedEpoch (set_heap n (alter (λ P, peer_setAccusation P a) q (heap n))) p
  = storedEpoch n p.
Proof.
  unfold storedEpoch, deref. simpl. rewrite !lookup_total_alt, lookup_alter.
  case_decide; [subst|done]. by destruct (heap n !! p).
Qed.

Lemma storedEpoch_setNote n q (nt : note) p (m : Node R) :
  heap m = heap (setNote n q nt) → is_Some (heap n !! p) →
  storedEpoch m p = if decide (q = p) then Some (epoch nt) else storedEpoch n p.
Proof.
  intros Hm [P HP]. unfold storedEpoch, deref. rewrite Hm. simpl.
  rewrite !lookup_total_alt.
  destruct (decide (q = p)) as [->|Hd].
  - by rewrite lookup_alter_eq, HP.
  - by rewrite lookup_alter_ne.
Qed.

(** One call of [evalNote], seen from the peer object at [p]. *)
Lemma evalNote_step n (g : Note) p :
  let n1 := (evalNote n g).1 in
  let v := (evalNote n g).2 in
  viewMap n1 = viewMap n
  ∧ (is_Some (heap n !! p) → is_Some (heap n1 !! p))
  ∧ (is_Some (heap n !! p) →
     storedEpoch n1 p
     = maxEpoch (storedEpoch n p)
         (if bool_decide (getViewPeer n (nId g) = Some p ∧ v = NoteAccepted)
          then [nEpoch g] else [])).
Proof.
  assert (Hno : ∀ v, v ≠ NoteAccepted →
    viewMap n = viewMap n
    ∧ (is_Some (heap n !! p) → is_Some (heap n !! p))
    ∧ (is_Some (heap n !! p) →
       storedEpoch n p
       = maxEpoch (storedEpoch n p)
           (if bool_decide (getViewPeer n (nId g) = Some p ∧ v = NoteAccepted)
            then [nEpoch g] else []))).
  { intros v Hv. split_and!; [done|done|]. intros _.
    rewrite bool_decide_eq_false_2; [done|]. by intros [_ ?]. }
  unfold evalNote.
  destruct (getViewPeer n (nId g)) as [q|] eqn:Hq; [|by apply Hno].
  destruct (validateSignature _ _ _ _) as [[|] [e|]];
    try (by apply Hno).
  destruct (getAccusation (deref n q)) as [pa|] eqn:Hpa.
  - destruct (acc_epoch pa <? nEpoch g); [|by apply Hno].
    simpl. split_and!; [done| |].
    + apply is_Some_alter.
    + intros _. rewrite bool_decide_eq_false_2 by (by intros [_ ?]).
      simpl. apply (storedEpoch_alter_accusation (deleteTimeout n (nId g))).
  - assert (Hst : ∀ m : Node R,
              heap m = heap (setNote n q (noteFrom n g q)) →
              match getNote (deref n q) with
              | None => True
              | Some cn => epoch cn < nEpoch g
              end →
              is_Some (heap n !! p) →
              storedEpoch m p
              = maxEpoch (storedEpoch n p)
                  (if bool_decide (Some q = Some p ∧ NoteAccepted = NoteAccepted)
                   then [nEpoch g] else [])).
    { intros m Hm Hlt HP.
      rewrite (storedEpoch_setNote n q (noteFrom n g q) p m Hm HP).
      destruct (decide (q = p)) as [->|Hd].
      - rewrite bool_decide_eq_true_2 by done.
        unfold storedEpoch. unfold getNote in Hlt.
        destruct (recentNote (deref n p)) as [cn|]; simpl; [|done].
        f_equal. lia.
      - rewrite bool_decide_eq_false_2; [done|]. intros [[=] _]. done. }
    fold (noteFrom n g q). fold (setNote n q (noteFrom n g q)).
    destruct (getNote (deref n q)) as [cn|] eqn:Hcn.
    + destruct (epoch cn <? nEpoch g) eqn:E; [|by apply Hno].
      destruct (getLivePeer _ _); simpl;
        (split_and!; [done|apply is_Some_alter|apply Hst; [done|lia]]).
    + destruct (getLivePeer _ _); simpl;
        (split_and!; [done|apply is_Some_alter|by apply Hst]).
Qed.

Lemma acceptedEpochs_cons n p g notes v vs :
  acceptedEpochs n p (g :: notes) (v :: vs)
  = (if bool_decide (getViewPeer n (nId g) = Some p ∧ v = NoteAccepted)
     then [nEpoch g] else []) ++ acceptedEpochs n p notes vs.
Proof. unfold acceptedEpochs. simpl. by case_bool_decide. Qed.

Lemma acceptedEpochs_viewMap n n1 p notes vs :
  viewMap n1 = viewMap n →
  acceptedEpochs n1 p notes vs = acceptedEpochs n p notes vs.
Proof. intros Hv. unfold acceptedEpochs, getViewPeer. by rewrite Hv. Qed.

Lemma evalNotes_storedEpoch (notes : list Note) n p :
  is_Some (heap n !! p) →
  storedEpoch (evalNotes n notes).1 p
  = maxEpoch (storedEpoch n p)
      (acceptedEpochs n p notes (evalNotes n notes).2).
Proof.
  revert n. induction notes as [|g notes IH]; intros n HP; [done|].
  simpl. destruct (evalNote_step n g p) as (Hview & Hdom & Hst).
  destruct (evalNote n g) as [n1 v] eqn:E1. simpl in *.
  specialize (IH n1 (Hdom HP)).
  destruct (evalNotes n1 notes) as [n2 vs] eqn:E2. simpl in *.
  rewrite acceptedEpochs_cons, maxEpoch_app, <- (Hst HP), IH.
  by rewrite (acceptedEpochs_viewMap n n1).
Qed.

(** C5: a note with a valid signature for a peer of the view that has
    no accusation is accepted iff the peer has no note or a note of
    strictly smaller epoch; an accepted note replaces the stored one and
    the peer is put into the live map when it was not there; a note
    that is not accepted changes nothing.  Over any run of [evalNote]
    calls the epoch stored on a peer is the maximum of the epoch it
    held before and the epochs of the notes accepted for it. *)
Theorem note_accepted_iff_newer n (g : Note) p P :
  getViewPeer n (nId g) = Some p → validNote n g p →
  heap n !! p = Some P → p_accusation P = None →
  let n' := (evalNote n g).1 in
  let v := (evalNote n g).2 in
  ((v = NoteAccepted
    ↔ recentNote P = None ∨ ∃ cn, recentNote P = Some cn ∧ epoch cn < nEpoch g)
   ∧ (v = NoteAccepted →
      heap n' !! p = Some (peer_setNote P (noteFrom n g p))
      ∧ viewMap n' = viewMap n
      ∧ (liveMap n !! nId g = None → liveMap n' = <[key P := p]> (liveMap n))
      ∧ (is_Some (liveMap n !! nId g) → liveMap n' = liveMap n))
   ∧ (v ≠ NoteAccepted → n' = n))
  ∧ ∀ (notes : list Note),
      let stored := storedEpoch (evalNotes n notes).1 p in
      let accepted := acceptedEpochs n p notes (evalNotes n notes).2 in
      stored = maxEpoch (storedEpoch n p) accepted
      ∧ match stored with
        | Some m =>
            m ∈ option_list (storedEpoch n p) ++ accepted
            ∧ ∀ e, e ∈ option_list (storedEpoch n p) ++ accepted → e ≤ m
        | None => storedEpoch n p = None ∧ accepted = []
        end.
Proof.
  intros Hp Hv HP Hacc. split; [by apply evalNote_unaccused|].
  intros notes. simpl.
  rewrite (evalNotes_storedEpoch notes n p) by eauto.
  split; [done|]. apply maxEpoch_is_max.
Qed.

(** ** Spread *)

Lemma reply_loop n (ks : list string) (reply : Partners) :
  foldl (λ reply k,
           match getLivePeer n k with
           | Some p =>
               {| pCertificates :=
                    pCertificates reply
                      ++ [ {| Raw := certRaw (cert (deref n p)) |} ] |}
           | None => reply
           end) reply ks
  = {| pCertificates := pCertificates reply ++ liveCerts n ks |}.
Proof.
  revert reply. induction ks as [|k ks IH]; intros reply.
  - simpl. destruct reply. simpl. by rewrite app_nil_r.
  - simpl. rewrite IH. unfold liveCerts. simpl.
    destruct (getLivePeer n k); simpl; [|done].
    by rewrite <- (assoc_L (++)).
Qed.

Lemma Spread_non_neighbour n cert rest (args : GossipMsg) :
  shouldBeNeighbours (rings n) (SubjectKeyId cert) = false →
  Locality cert ≠ [] →
  Spread n (Some (TLSInfo (cert :: rest))) args =
    match addCaller n (SubjectKeyId cert) cert with
    | None => Returns (n, (None, Some errInvalidPeerInformation))
    | Some n' =>
        Returns (n', (Some {| pCertificates :=
                                liveCerts n' (findNeighbours (rings n')
                                                (SubjectKeyId cert)) |},
                      None))
    end.
Proof.
  intros Hnb Hloc. unfold Spread. rewrite Hnb. simpl.
  destruct (Locality cert); [done|].
  destruct (addCaller n (SubjectKeyId cert) cert); [|done].
  by rewrite reply_loop.
Qed.

Lemma addCaller_unknown n cert :
  viewPeerExist n (SubjectKeyId cert) = false → newPeerError cert = None →
  ∃ n' p stub,
    addCaller n (SubjectKeyId cert) cert = Some n'
    ∧ heap n !! p = None
    ∧ heap n' = <[p := stub]> (heap n)
    ∧ viewMap n' = <[SubjectKeyId cert := p]> (viewMap n)
    ∧ liveMap n' = <[SubjectKeyId cert := p]> (liveMap n)
    ∧ timeoutMap n' = timeoutMap n
    ∧ key stub = SubjectKeyId cert
    ∧ recentNote stub = None ∧ p_accusation stub = None.
Proof.
  intros Hv He. unfold addCaller, newPeer. rewrite Hv, He. simpl.
  set (p := fresh (dom (heap n))).
  set (stub := {| p_peerId := PeerId (SubjectKeyId cert) |}).
  assert (Hd : ∀ m : Node R, heap m = <[p := stub]> (heap n) → deref m p = stub).
  { intros m Hm. unfold deref. by rewrite Hm, lookup_total_insert_eq. }
  eexists _, p, stub. split; [done|]. simpl.
  split_and!; try done.
  - apply not_elem_of_dom. apply is_fresh.
  - by rewrite Hd.
  - by rewrite Hd.
Qed.

(** C6 (amended): [Spread] from an authenticated caller that should not
    be a neighbour merges nothing of the caller's message (its result
    does not depend on the message).  A caller the view knows leaves the
    node as it is; one it does not know gets a stub peer without note
    or accusation, which is put into the view map and into the live map;
    the reply carries the certificates of those computed neighbours of
    the caller that are in the live map.  When [newPeer] fails the call
    returns [errInvalidPeerInformation] and changes nothing. *)
Theorem spread_to_non_neighbour n cert rest (args : GossipMsg) :
  shouldBeNeighbours (rings n) (SubjectKeyId cert) = false →
  Locality cert ≠ [] →
  let ctx := Some (TLSInfo (cert :: rest)) in
  let k := SubjectKeyId cert in
  (∀ args', Spread n ctx args' = Spread n ctx args)
  ∧ (viewPeerExist n k = true →
     Spread n ctx args
     = Returns (n, (Some {| pCertificates :=
                              liveCerts n (findNeighbours (rings n) k) |},
                    None)))
  ∧ (viewPeerExist n k = false → newPeerError cert = None →
     ∃ n' p stub,
       Spread n ctx args
       = Returns (n', (Some {| pCertificates :=
                                 liveCerts n' (findNeighbours (rings n') k) |},
                       None))
       ∧ heap n !! p = None
       ∧ heap n' = <[p := stub]> (heap n)
       ∧ viewMap n' = <[k := p]> (viewMap n)
       ∧ liveMap n' = <[k := p]> (liveMap n)
       ∧ timeoutMap n' = timeoutMap n
       ∧ recentNote stub = None ∧ p_accusation stub = None)
  ∧ (viewPeerExist n k = false → is_Some (newPeerError cert) →
     Spread n ctx args = Returns (n, (None, Some errInvalidPeerInformation))).
Proof.
  intros Hnb Hloc. cbv zeta. split_and!.
  - intros args'. by rewrite !Spread_non_neighbour.
  - intros Hk. rewrite Spread_non_neighbour by done.
    unfold addCaller. by rewrite Hk.
  - intros Hk He. rewrite Spread_non_neighbour by done.
    destruct (addCaller_unknown n cert Hk He)
      as (n' & p & stub & -> & ? & ? & ? & ? & ? & ? & ? & ?).
    exists n', p, stub. split_and!; done.
  - intros Hk [e He]. rewrite Spread_non_neighbour by done.
    unfold addCaller, newPeer. by rewrite Hk, He.
Qed.

(** ** Accusations and rank *)

(** The three ways [evalAccusation] can end: the rebuttal, a drop that
    leaves the node as it was, or the accusation stored on the accused
    peer object. *)
Lemma evalAccusation_cases n (a : Accusation) :
  evalAccusation n a
    = (Rebuttal (setEpoch n (wrap64 (aEpoch a + 1))), SelfAccused)
  ∨ (∃ v, evalAccusation n a = (n, v) ∧ v ≠ Recorded
          ∧ (v = LowerRank →
             ∃ p x old,
               getLivePeer n (aAccused a) = Some p
               ∧ accuserId n a = Some x
               ∧ p_accusation (deref n p) = Some old
               ∧ isHigherRank (rings n) x (accuser old) = false))
  ∨ (∃ p x a' n1,
       evalAccusation n a = (n1, Recorded)
       ∧ getLivePeer n (aAccused a) = Some p
       ∧ accuserId n a = Some x
       ∧ accuser a' = x
       ∧ heap n1 = alter (λ P, peer_setAccusation P (Some a')) p (heap n)
       ∧ liveMap n1 = liveMap n ∧ rings n1 = rings n
       ∧ (∀ old, p_accusation (deref n p) = Some old →
                 isHigherRank (rings n) x (accuser old) = true)).
Proof.
  unfold evalAccusation.
  destruct (equal _ _); [by left|].
  destruct (getLivePeer n (aAccused a)) as [p|] eqn:Hp;
    [|right; left; by eexists].
  destruct (match getNote (deref n p) with
            | Some pn => aEpoch a >? epoch pn | None => true end);
    [|right; left; by eexists].
  destruct (getLivePeer n (aAccuser a)) as [q|] eqn:Hq;
    [|right; left; by eexists].
  assert (Hx : accuserId n a = Some (p_peerId (deref n q))).
  { unfold accuserId. by rewrite Hq. }
  destruct (getAccusation (deref n p)) as [old|] eqn:Hold.
  - destruct (isHigherRank (rings n) (p_peerId (deref n q)) (accuser old)) eqn:Hr;
      simpl.
    + destruct (validateSignature _ _ _ _) as [[|] [e|]];
        try (right; left; by eexists).
      destruct (isPrev _ _ _); simpl; [|right; left; by eexists].
      unfold setAccusation. destruct (setAccusationError _ _); simpl;
        [right; left; by eexists|].
      destruct (timerExist _ _); simpl;
        (right; right; eexists p, _, _, _; split; [done|];
         split_and!; try done; try reflexivity;
         intros old' Hold'; unfold getAccusation in Hold; congruence).
    + right; left. eexists. split_and!; [done|done|]. intros _.
      by exists p, (p_peerId (deref n q)), old.
  - simpl.
    destruct (validateSignature _ _ _ _) as [[|] [e|]];
      try (right; left; by eexists).
    destruct (isPrev _ _ _); simpl; [|right; left; by eexists].
    unfold setAccusation. destruct (setAccusationError _ _); simpl;
      [right; left; by eexists|].
    destruct (timerExist _ _); simpl;
      (right; right; eexists p, _, _, _; split; [done|];
       split_and!; try done; try reflexivity;
       intros old' Hold'; unfold getAccusation in Hold; congruence).
Qed.

(** What a call of [evalAccusation] leaves alone: the live map, the
    rings, the ids of the peer objects and the set of peer objects. *)
Lemma evalAccusation_frame n (a : Accusation) :
  let n1 := (evalAccusation n a).1 in
  liveMap n1 = liveMap n ∧ rings n1 = rings n
  ∧ (∀ q, p_peerId (deref n1 q) = p_peerId (deref n q))
  ∧ (∀ q, heap n !! q = None → heap n1 !! q = None).
Proof.
  destruct (evalAccusation_cases n a)
    as [->|[(v & -> & _)|(p & x & a' & n1 & -> & _ & _ & _ & Hh & Hl & Hr & _)]];
    simpl; [done|done|].
  split_and!; [done|done| |].
  - intros q. unfold deref. rewrite Hh, !lookup_total_alt, lookup_alter.
    case_decide; [subst|done]. by destruct (heap n !! q).
  - intros q Hq. rewrite Hh, lookup_alter. case_decide; subst; by rewrite Hq.
Qed.


Lemma accuserId_frame n n1 (a : Accusation) :
  liveMap n1 = liveMap n →
  (∀ q, p_peerId (deref n1 q) = p_peerId (deref n q)) →
  accuserId n1 a = accuserId n a.
Proof.
  intros Hl Hid. unfold accuserId, getLivePeer. rewrite Hl.
  destruct (liveMap n !! aAccuser a); simpl; [|done]. by rewrite Hid.
Qed.

(** The accusation stored on a peer object after one call: the one that
    was there, or the new one, which then outranks the one it
    replaces. *)
Lemma evalAccusation_stored n (a : Accusation) q :
  let n1 := (evalAccusation n a).1 in
  let v := (evalAccusation n a).2 in
  (p_accusation (deref n1 q) = p_accusation (deref n q)
   ∧ (v = Recorded → getLivePeer n (aAccused a) = Some q → heap n !! q = None))
  ∨ (v = Recorded ∧ getLivePeer n (aAccused a) = Some q
     ∧ ∃ x acc', accuserId n a = Some x
         ∧ p_accusation (deref n1 q) = Some acc' ∧ accuser acc' = x
         ∧ ∀ old, p_accusation (deref n q) = Some old →
                  isHigherRank (rings n) x (accuser old) = true).
Proof.
  destruct (evalAccusation_cases n a)
    as [->|[(v & -> & Hv & _)|(p & x & a' & n1 & -> & Hp & Hx & Ha' & Hh & _ & _ & Hr)]];
    simpl; [by left|by left|].
  destruct (decide (p = q)) as [->|Hne].
  - destruct (heap n !! q) as [Q|] eqn:HQ.
    + right. split_and!; [done|done|]. exists x, a'.
      split_and!; [done| |done|done].
      unfold deref. by rewrite Hh, (lookup_total_alter_Some _ _ _ Q HQ).
    + left. split; [|done]. unfold deref.
      by rewrite Hh, !lookup_total_alt, lookup_alter_eq, HQ.
  - left. split; [|intros _ ?; congruence].
    unfold deref. by rewrite Hh, lookup_total_alter_other.
Qed.

Lemma evalAccusation_LowerRank n (a : Accusation) :
  (evalAccusation n a).2 = LowerRank →
  (evalAccusation n a).1 = n
  ∧ ∃ p x old,
      getLivePeer n (aAccused a) = Some p
      ∧ accuserId n a = Some x
      ∧ p_accusation (deref n p) = Some old
      ∧ isHigherRank (rings n) x (accuser old) = false.
Proof.
  destruct (evalAccusation_cases n a)
    as [->|[(v & -> & _ & Hv)|(p & x & a' & n1 & -> & _)]]; simpl; [done| |done].
  intros ->. split; [done|]. by apply Hv.
Qed.

Lemma evalAccusations_cons n (a : Accusation) accs :
  evalAccusations n (a :: accs)
  = ((evalAccusations (evalAccusation n a).1 accs).1,
     (evalAccusation n a).2 :: (evalAccusations (evalAccusation n a).1 accs).2).
Proof.
  simpl. destruct (evalAccusation n a) as [n1 v]. simpl.
  by destruct (evalAccusations n1 accs).
Qed.

Lemma evalAccusations_dangling (accs : list Accusation) n q :
  heap n !! q = None → heap (evalAccusations n accs).1 !! q = None.
Proof.
  revert n. induction accs as [|a accs IH]; intros n Hq; [done|].
  rewrite evalAccusations_cons. simpl. apply IH.
  by apply evalAccusation_frame.
Qed.

Section Rank.
Context (n0 : Node R).
Hypothesis higher_irrefl : ∀ x, isHigherRank (rings n0) x x = false.
Hypothesis higher_trans :
  ∀ x y z, isHigherRank (rings n0) x y = true → isHigherRank (rings n0) y z = true → isHigherRank (rings n0) x z = true.

(** Over a run of [evalAccusation] calls the accuser stored on a peer
    object never gets a worse rank, and it is not outranked by any
    accuser the run has compared by rank for that object. *)
Lemma evalAccusations_rank (accs : list Accusation) n q acc :
  liveMap n = liveMap n0 → rings n = rings n0 →
  (∀ p, p_peerId (deref n p) = p_peerId (deref n0 p)) →
  p_accusation (deref (evalAccusations n accs).1 q) = Some acc →
  (∀ old, p_accusation (deref n q) = Some old →
          accuser acc = accuser old
          ∨ isHigherRank (rings n0) (accuser acc) (accuser old) = true)
  ∧ (∀ (i : nat) a v x,
       accs !! i = Some a → (evalAccusations n accs).2 !! i = Some v →
       getLivePeer n0 (aAccused a) = Some q →
       v = Recorded ∨ v = LowerRank →
       accuserId n0 a = Some x →
       isHigherRank (rings n0) x (accuser acc) = false).
Proof.
  revert n. induction accs as [|a accs IH]; intros n Hl Hr Hid Hacc.
  { simpl in *. split; [|done]. intros old Hold. left. congruence. }
  rewrite evalAccusations_cons in *. simpl in Hacc.
  destruct (evalAccusation_frame n a) as (Hl1 & Hr1 & Hid1 & Hd1).
  pose proof (evalAccusation_stored n a q) as Hstored.
  pose proof (evalAccusation_LowerRank n a) as Hlower.
  set (n1 := (evalAccusation n a).1) in *.
  set (v0 := (evalAccusation n a).2) in *.
  destruct (IH n1) as [IH1 IH2]; [congruence|congruence| |done|].
  { intros p. by rewrite Hid1. }
  assert (Hx0 : accuserId n a = accuserId n0 a) by (by apply accuserId_frame).
  assert (Hg0 : getLivePeer n (aAccused a) = getLivePeer n0 (aAccused a)).
  { unfold getLivePeer. by rewrite Hl. }
  assert (Hsome : is_Some (heap n !! q)).
  { destruct (heap n !! q) eqn:E; [eauto|].
    pose proof (evalAccusations_dangling accs n1 q (Hd1 q E)) as Hnone.
    unfold deref in Hacc. rewrite lookup_total_alt, Hnone in Hacc. done. }
  assert (Hasym : ∀ x y, isHigherRank (rings n0) x y = true → isHigherRank (rings n0) y x = false).
  { intros x y Hxy. destruct (isHigherRank (rings n0) y x) eqn:Hyx; [|done].
    pose proof (higher_trans x y x Hxy Hyx). by rewrite higher_irrefl in H. }
  destruct Hstored
    as [[Hsame Hdang]|(Hv & Hq & x & acc' & Hx & Hst & Hacc' & Hbetter)].
  - split.
    + intros old Hold. apply IH1. congruence.
    + intros [|i] a1 v x Ha1 Hv1 Hq1 Hv Hx1; simpl in *; [|by eapply IH2].
      simplify_eq. destruct Hv as [Hv|Hv].
      * destruct Hsome as [Q HQ]. rewrite Hdang in HQ; [done|done|congruence].
      * destruct (Hlower Hv)
          as (_ & p & x' & old & Hp & Hx' & Hold & Hlow).
        assert (p = q) as -> by congruence.
        assert (x' = x) as -> by congruence.
        rewrite Hr in Hlow.
        destruct (IH1 old ltac:(congruence)) as [Heq|Hhi]; [by rewrite Heq|].
        destruct (isHigherRank (rings n0) x (accuser acc)) eqn:E; [|done].
        pose proof (higher_trans _ _ _ E Hhi). congruence.
  - rewrite Hr in Hbetter. subst x.
    destruct (IH1 acc' Hst) as [Heq|Hhi].
    + split.
      * intros old Hold. right. rewrite Heq. by apply Hbetter.
      * intros [|i] a1 v x1 Ha1 Hv1 Hq1 Hvv Hx1; simpl in *; [|by eapply IH2].
        simplify_eq. rewrite Heq.
        assert (x1 = accuser acc') as -> by congruence.
        apply higher_irrefl.
    + split.
      * intros old Hold. right. eapply higher_trans; [done|]. by apply Hbetter.
      * intros [|i] a1 v x1 Ha1 Hv1 Hq1 Hvv Hx1; simpl in *; [|by eapply IH2].
        simplify_eq.
        assert (x1 = accuser acc') as -> by congruence.
        by apply Hasym.
Qed.

End Rank.

Lemma evalAccusation_lower_rank_dropped n (a : Accusation) p x old :
  id (peerId_ n) ≠ aAccused a →
  getLivePeer n (aAccused a) = Some p → notStale n a p = true →
  accuserId n a = Some x → p_accusation (deref n p) = Some old →
  isHigherRank (rings n) x (accuser old) = false →
  evalAccusation n a = (n, LowerRank).
Proof.
  intros Hne Hp Hfresh Hx Hold Hlow. unfold evalAccusation, equal. simpl.
  rewrite bool_decide_eq_false_2 by done. rewrite Hp.
  unfold notStale in Hfresh. rewrite Hfresh.
  unfold accuserId in Hx.
  destruct (getLivePeer n (aAccuser a)) as [q|]; [|done].
  simpl in Hx. injection Hx as <-.
  unfold getAccusation. by rewrite Hold, Hlow.
Qed.

(** C4 (amended): after any run of [evalAccusation] calls a peer holds
    at most one accusation, and when [isHigherRank] is a strict order
    the accuser of the stored accusation is not outranked by the accuser
    of any accusation of the run against that peer that was stored or
    was dropped by the rank rule; a newcomer that passes the staleness
    test and whose accuser does not outrank the stored accuser is
    dropped, leaving the node as it was. *)
Theorem stored_accuser_not_outranked n (accs : list Accusation) :
  (∀ x, isHigherRank (rings n) x x = false) →
  (∀ x y z, isHigherRank (rings n) x y = true →
            isHigherRank (rings n) y z = true →
            isHigherRank (rings n) x z = true) →
  let n' := (evalAccusations n accs).1 in
  let vs := (evalAccusations n accs).2 in
  (∀ q a1 a2, p_accusation (deref n' q) = Some a1 →
              p_accusation (deref n' q) = Some a2 → a1 = a2)
  ∧ (∀ q acc (i : nat) a v x,
       p_accusation (deref n' q) = Some acc →
       accs !! i = Some a → vs !! i = Some v →
       getLivePeer n (aAccused a) = Some q →
       v = Recorded ∨ v = LowerRank →
       accuserId n a = Some x →
       isHigherRank (rings n) x (accuser acc) = false)
  ∧ (∀ a p x old,
       id (peerId_ n) ≠ aAccused a →
       getLivePeer n (aAccused a) = Some p → notStale n a p = true →
       accuserId n a = Some x → p_accusation (deref n p) = Some old →
       isHigherRank (rings n) x (accuser old) = false →
       evalAccusation n a = (n, LowerRank)).
Proof.
  intros Hirr Htr. cbv zeta. split_and!.
  - intros q a1 a2 H1 H2. congruence.
  - intros q acc i a v x Hacc Ha Hv Hq Hvv Hx.
    destruct (evalAccusations_rank n Hirr Htr accs n q acc) as [_ H2]; try done.
    by eapply H2.
  - intros a p x old. apply evalAccusation_lower_rank_dropped.
Qed.

End Facts.

(** ** The server run on concrete inputs *)



(** C3 (as the claim states it, refuted): B's note is at epoch 7 and C,
    a live predecessor of B with a good signature, accuses B at epoch 7.
    The accusation is dropped as stale although B's note is not strictly
    newer; the same accusation at epoch 8 is recorded. *)
Lemma accusation_at_note_epoch_is_dropped :
  let n := node 1 (Some (noteOf "B" 7)) None ∅ in
  let a := accuse "C" "B" 7 in
  getLivePeer n (aAccused a) = Some 1%nat
  ∧ storedEpoch n 1%nat = Some 7
  ∧ ¬ (aEpoch a < 7)
  ∧ evalAccusation n a = (n, Stale)
  ∧ (evalAccusation n (accuse "C" "B" 8)).2 = Recorded.
Proof. cbv zeta. split_and!; [done|done|simpl; lia|done|done]. Qed.

Lemma accusation_stale_iff_witness :
  let n := node 1 (Some (noteOf "B" 7)) None ∅ in
  let a := accuse "C" "B" 7 in
  id (peerId_ n) ≠ aAccused a
  ∧ match getLivePeer n (aAccused a) with
    | None => evalAccusation n a = (n, AccusedNotLive)
    | Some p =>
        ((evalAccusation n a).2 = Stale
         ↔ ∃ pn, getNote (deref n p) = Some pn ∧ aEpoch a ≤ epoch pn)
        ∧ ((evalAccusation n a).2 = Stale → (evalAccusation n a).1 = n)
    end.
Proof.
  cbv zeta. split; [discriminate|].
  apply (accusation_stale_iff (node 1 (Some (noteOf "B" 7)) None ∅)
           (accuse "C" "B" 7)).
  discriminate.
Defined.

(** C2, at the input where the code departs from the claim: B is accused
    at epoch 7 and holds a note of epoch 6; a valid note of epoch 8
    arrives.  The accusation is cleared, the timeout is gone and B is in
    the live map, but the rebuttal branch never calls [setNote]: B's
    stored note is still the one of epoch 6. *)
Theorem rebuttal_note_is_not_stored :
  let n := node 1 (Some (noteOf "B" 6)) (Some (accusationBy "C" 7))
             {[ "B" := timerB ]} in
  let g := sendNote "B" 8 in
  let n' := (evalNote n g).1 in
  getViewPeer n (nId g) = Some 1%nat
  ∧ validNote n g 1%nat
  ∧ (evalNote n g).2 = NoteRebuttal
  ∧ p_accusation (deref n' 1%nat) = None
  ∧ timeoutMap n' !! "B" = None
  ∧ liveMap n' !! "B" = Some 1%nat
  ∧ storedEpoch n' 1%nat = Some 6
  ∧ storedEpoch n' 1%nat ≠ Some (nEpoch g)
  ∧ (evalAccusation n' (accuse "C" "B" 7)).2 = Recorded.
Proof. cbv zeta. split_and!; try done. Qed.

Lemma ringADBC_irrefl x : isHigherRank ringADBC x x = false.
Proof.
  destruct x as [k]. simpl. destruct (String.eqb_spec k "D") as [->|]; done.
Qed.

Lemma ringADBC_trans x y z :
  isHigherRank ringADBC x y = true → isHigherRank ringADBC y z = true →
  isHigherRank ringADBC x z = true.
Proof.
  destruct x as [a], y as [b], z as [c]. simpl.
  rewrite !andb_true_iff, !String.eqb_eq. intros [_ ->] [[=] _].
Qed.

(** C4 (as the claim states it, refuted): D outranks C as accuser of B.
    D's accusation arrives first, at the epoch of B's note, and is dropped
    as stale; C's accusation at the next epoch is then stored.  The
    stored accuser is C, with a worse rank than the accuser D seen
    before for the same peer. *)
Lemma outranking_accuser_seen_but_not_stored :
  let n := node 1 (Some (noteOf "B" 6)) None ∅ in
  let accs := [accuse "D" "B" 6; accuse "C" "B" 7] in
  let n' := (evalAccusations n accs).1 in
  (evalAccusations n accs).2 = [Stale; Recorded]
  ∧ accuser <$> p_accusation (deref n' 1%nat) = Some (PeerId "C")
  ∧ isHigherRank (rings n) (PeerId "D") (PeerId "C") = true.
Proof. cbv zeta. split_and!; done. Qed.

(** Scenario S4: C's accusation of B is stored, D's at the same epoch
    replaces it, and C's next one is dropped by the rank rule. *)
Lemma stored_accuser_not_outranked_witness :
  let n := node 1 (Some (noteOf "B" 6)) None ∅ in
  let accs := [accuse "C" "B" 7; accuse "D" "B" 7; accuse "C" "B" 9] in
  let n' := (evalAccusations n accs).1 in
  (evalAccusations n accs).2 = [Recorded; Recorded; LowerRank]
  ∧ accuser <$> p_accusation (deref n' 1%nat) = Some (PeerId "D")
  ∧ ∀ acc, p_accusation (deref n' 1%nat) = Some acc →
           isHigherRank (rings n) (PeerId "C") (accuser acc) = false.
Proof.
  cbv zeta. split; [done|]. split; [done|].
  intros acc Hacc.
  destruct (stored_accuser_not_outranked (node 1 (Some (noteOf "B" 6)) None ∅)
              [accuse "C" "B" 7; accuse "D" "B" 7; accuse "C" "B" 9]
              ringADBC_irrefl ringADBC_trans) as (_ & H2 & _).
  apply (H2 1%nat acc 0%nat (accuse "C" "B" 7) Recorded (PeerId "C"));
    [exact Hacc|reflexivity|reflexivity|reflexivity|by left|reflexivity].
Defined.

Lemma note_accepted_iff_newer_witness :
  let n := node 1 (Some (noteOf "B" 6)) None ∅ in
  let g := sendNote "B" 8 in
  (getViewPeer n (nId g) = Some 1%nat ∧ validNote n g 1%nat)
  ∧ (evalNote n g).2 = NoteAccepted
  ∧ storedEpoch (evalNotes n [sendNote "B" 8; sendNote "B" 7; sendNote "B" 9]).1
      1%nat = Some 9.
Proof.
  cbv zeta. split; [split; reflexivity|].
  assert (Hvalid : validNote (node 1 (Some (noteOf "B" 6)) None ∅)
                     (sendNote "B" 8) 1%nat) by reflexivity.
  destruct (note_accepted_iff_newer (node 1 (Some (noteOf "B" 6)) None ∅)
              (sendNote "B" 8) 1%nat (peerOf "B" (Some (noteOf "B" 6)) None)
              eq_refl Hvalid eq_refl eq_refl) as [(Hiff & _ & _) Hrun].
  split.
  - apply Hiff. right. exists (noteOf "B" 6). split; [reflexivity|simpl; lia].
  - destruct (Hrun [sendNote "B" 8; sendNote "B" 7; sendNote "B" 9]) as [-> _].
    reflexivity.
Defined.

(** C6 (as the claim states it, refuted): X is authenticated, is not a
    neighbour and is not in the view.  [Spread] builds the stub and calls
    [addViewPeer] and [addLivePeer]: afterwards the stub is in the live
    map. *)
Lemma stub_of_non_neighbour_is_live :
  let n := node 1 None None ∅ in
  shouldBeNeighbours (rings n) "X" = false
  ∧ viewMap n !! "X" = None
  ∧ match Spread n (Some (TLSInfo [certOf "X"])) emptyMsg with
    | Returns (n', _) =>
        viewMap n' !! "X" = Some 4%nat ∧ liveMap n' !! "X" = Some 4%nat
        ∧ recentNote (deref n' 4%nat) = None
    | _ => False
    end.
Proof. cbv zeta. split_and!; [done|done|]. vm_compute. done. Qed.

Lemma spread_to_non_neighbour_witness :
  let n := node 1 None None ∅ in
  let ctx := Some (TLSInfo [certOf "X"]) in
  (shouldBeNeighbours (rings n) "X" = false ∧ Locality (certOf "X") ≠ [])
  ∧ ∀ args', Spread n ctx args' = Spread n ctx emptyMsg.
Proof.
  cbv zeta. split; [split; [reflexivity|discriminate]|].
  assert (Hnb : shouldBeNeighbours (rings (node 1 None None ∅))
                  (SubjectKeyId (certOf "X")) = false) by reflexivity.
  destruct (spread_to_non_neighbour (node 1 None None ∅) (certOf "X") []
              emptyMsg Hnb) as (Hindep & _); [discriminate|].
  exact Hindep.
Defined.

End NodeFacts.

(* ===================================================================== *)
(** * Part III. More of the code                                          *)
(* ===================================================================== *)

Module SortMore.
Import Go Sort SortFacts.

(** The loop of [insert] on any slice, ordered or not: it returns the
    slice with the new id put in front of some position. *)
Lemma insert_loop_shape fuel (l : list ringId) new currIdx maxIdx :
  0 ≤ currIdx < len l → maxIdx < len l → currIdx ≤ maxIdx + 1 →
  (Z.to_nat (maxIdx - currIdx) < fuel)%nat →
  ∃ k, (k ≤ length l)%nat
       ∧ insert_loop fuel l new currIdx maxIdx
         = Returns (insert_at k new l, Z.of_nat k).
Proof.
  revert currIdx maxIdx.
  induction fuel as [|fuel IH]; intros currIdx maxIdx Hc Hm Hcm Hf; [lia|].
  simpl. case_bool_decide as Hge.
  - destruct (index_in_range l currIdx) as [x Hx]; [lia|].
    destruct (insert_here_spec l new currIdx x Hx) as [Heq Hk]. eauto.
  - pose proof (mid_bounds currIdx maxIdx ltac:(lia) ltac:(lia)) as Hmid.
    set (mid := (currIdx + maxIdx) `quot` 2) in *.
    destruct (index_in_range l mid) as [x Hx]; [lia|]. rewrite Hx.
    destruct (cmpId x new =? -1); apply IH; lia.
Qed.

(** [insert] on any slice, ordered or not, never panics: it returns a
    slice that holds the new id at the index it reports, and taking that
    entry out again gives back the slice it was called with. *)
Theorem insert_adds_one_entry (l : list ringId) (new : ringId) :
  ∃ l' idx,
    insert l new = Returns (l', idx)
    ∧ 0 ≤ idx ≤ len l
    ∧ l' !! Z.to_nat idx = Some new
    ∧ delete (Z.to_nat idx) l' = l.
Proof.
  assert (∃ k, (k ≤ length l)%nat
               ∧ insert l new = Returns (insert_at k new l, Z.of_nat k))
    as (k & Hk & ->).
  { unfold insert. destruct (len l - 1 =? -1) eqn:E.
    - apply Z.eqb_eq in E. exists 0%nat.
      assert (l = []) as -> by (destruct l; [done|]; unfold len in E; simpl in E; lia).
      done.
    - apply Z.eqb_neq in E. apply insert_loop_shape; unfold len in *; lia. }
  exists (insert_at k new l), (Z.of_nat k). rewrite Nat2Z.id.
  split_and!; [done|lia|unfold len; lia| |].
  - rewrite insert_at_lookup by done. repeat case_decide; try lia; done.
  - unfold insert_at.
    rewrite <- (length_take_le l k) at 1 by done.
    by rewrite delete_middle, take_drop.
Qed.

Lemma insert_at_ascending l new k :
  ascending l → insertion_point l new k → ascending (insert_at k new l).
Proof.
  intros Hs (Hk & Hlo & Hhi) i j x y Hx Hy Hij.
  rewrite insert_at_lookup in Hx, Hy by done.
  repeat case_decide; simplify_eq; try lia.
  - by apply (Hs i j).
  - pose proof (Hlo i x Hx ltac:(lia)). lia.
  - pose proof (Hlo i x Hx ltac:(lia)).
    pose proof (Hhi _ y Hy ltac:(lia)). lia.
  - apply (Hhi _ y Hy). lia.
  - apply (Hs (i - 1)%nat (j - 1)%nat); [done|done|lia].
Qed.

(** On a slice in ascending order, ids repeated or not, [insert] keeps the
    order and puts the new id at its lower bound: every entry in front of
    the reported index is strictly smaller, no entry behind it is. *)
Theorem insert_at_lower_bound (l : list ringId) (new : ringId) :
  ascending l →
  ∃ l' idx,
    insert l new = Returns (l', idx)
    ∧ ascending l'
    ∧ (∀ (i : nat) x, l' !! i = Some x → Z.of_nat i < idx → id x < id new)
    ∧ (∀ (i : nat) x, l' !! i = Some x → idx < Z.of_nat i → id new ≤ id x).
Proof.
  intros Hasc. destruct (insert_spec l new Hasc) as (k & -> & Hip).
  exists (insert_at k new l), (Z.of_nat k).
  split_and!; [done|by apply insert_at_ascending| |].
  - destruct Hip as (Hk & Hlo & _). intros i x Hx Hi.
    rewrite insert_at_lookup in Hx by done. case_decide; [|lia].
    apply (Hlo i x Hx). lia.
  - destruct Hip as (Hk & _ & Hhi). intros i x Hx Hi.
    rewrite insert_at_lookup in Hx by done. repeat case_decide; try lia.
    apply (Hhi _ x Hx). lia.
Qed.

Lemma insert_at_lower_bound_witness :
  ∃ l' idx,
    insert [RingId 2; RingId 7; RingId 7; RingId 9] (RingId 7) = Returns (l', idx)
    ∧ ascending l'
    ∧ (∀ (i : nat) x, l' !! i = Some x → Z.of_nat i < idx → id x < 7)
    ∧ (∀ (i : nat) x, l' !! i = Some x → idx < Z.of_nat i → 7 ≤ id x).
Proof.
  apply (insert_at_lower_bound [RingId 2; RingId 7; RingId 7; RingId 9] (RingId 7)).
  intros i j x y Hx Hy Hij.
  destruct i as [|[|[|[|i]]]], j as [|[|[|[|j]]]];
    simpl in *; simplify_eq; simpl; lia.
Defined.

Lemma absent_or_present (l : list ringId) (s : ringId) :
  absent s l ∨ ∃ (k : nat) y, l !! k = Some y ∧ id y = id s.
Proof.
  induction l as [|a l IH].
  - left. intros x Hx. by apply elem_of_nil in Hx.
  - destruct (decide (id a = id s)) as [Heq|Hne].
    { right. by exists 0%nat, a. }
    destruct IH as [Habs|(k & y & Hk & Hy)].
    + left. intros x Hx. apply elem_of_cons in Hx as [->|Hx].
      * by rewrite cmpId_eq.
      * by apply Habs.
    + right. by exists (S k), y.
Qed.

(** On a non-empty slice in ascending order [search] answers
    [errIdNotFound] exactly for the ids that are not in the slice; for an
    id that is there it returns an index that holds it. *)
Theorem search_fails_iff_absent (l : list ringId) (s : ringId) :
  ascending l → l ≠ [] →
  (search l s = Returns (-1, Some errIdNotFound) ↔ absent s l)
  ∧ (¬ absent s l →
     ∃ idx x, search l s = Returns (idx, None)
              ∧ index l idx = Some x ∧ cmpId x s = 0).
Proof.
  intros Hasc Hne.
  assert (Hfound : ¬ absent s l →
            ∃ idx x, search l s = Returns (idx, None)
                     ∧ index l idx = Some x ∧ cmpId x s = 0).
  { intros Hna. destruct (absent_or_present l s) as [?|(k & y & Hk & Hy)]; [done|].
    pose proof (lookup_lt_Some _ _ _ Hk) as Hlen.
    destruct (search_loop_finds (S (length l)) l s 0 (len l - 1) k y)
      as (i & x & Heq & Hx & Hc); unfold len in *; try lia; try done.
    exists i, x. unfold search. fold (len l). unfold len. by rewrite Heq. }
  split; [|done]. split.
  - intros Hs. destruct (absent_or_present l s) as [?|(k & y & Hk & Hy)]; [done|].
    destruct Hfound as (idx & x & Heq & _); [|congruence].
    intros Ha. apply (Ha y); [by eapply list_elem_of_lookup_2|by apply cmpId_eq].
  - by apply search_absent.
Qed.

Lemma search_fails_iff_absent_witness :
  (search [RingId 2; RingId 7; RingId 7; RingId 9] (RingId 8)
   = Returns (-1, Some errIdNotFound)
   ↔ absent (RingId 8) [RingId 2; RingId 7; RingId 7; RingId 9])
  ∧ (¬ absent (RingId 8) [RingId 2; RingId 7; RingId 7; RingId 9] →
     ∃ idx x, search [RingId 2; RingId 7; RingId 7; RingId 9] (RingId 8)
              = Returns (idx, None)
              ∧ index [RingId 2; RingId 7; RingId 7; RingId 9] idx = Some x
              ∧ cmpId x (RingId 8) = 0).
Proof.
  apply (search_fails_iff_absent [RingId 2; RingId 7; RingId 7; RingId 9] (RingId 8)).
  - intros i j x y Hx Hy Hij.
    destruct i as [|[|[|[|i]]]], j as [|[|[|[|j]]]];
      simpl in *; simplify_eq; simpl; lia.
  - discriminate.
Defined.

Lemma insert_then_search_witness :
  ∃ l' idx, insert [RingId 2; RingId 7; RingId 9] (RingId 8) = Returns (l', idx)
            ∧ search l' (RingId 8) = Returns (idx, None).
Proof.
  apply insert_then_search.
  - apply strictly_increasingb_spec. reflexivity.
  - apply absentb_spec. reflexivity.
Defined.

End SortMore.

Module GossipMore.
Import Go Gossip.


Lemma byteVal_byteOf z : 0 ≤ z < 256 → byteVal (byteOf z) = z.
Proof.
  intros Hz. unfold byteVal, byteOf.
  destruct (Byte.of_N (Z.to_N z)) as [b|] eqn:E; simpl.
  - apply Byte.to_of_N in E. rewrite E. lia.
  - apply Byte.of_N_None_iff in E. lia.
Qed.

Lemma lor_shiftl_add a b n :
  0 ≤ n → 0 ≤ a < 2 ^ n → 0 ≤ b → Z.lor a (Z.shiftl b n) = a + b * 2 ^ n.
Proof.
  intros Hn Ha Hb. apply Z.bits_inj'. intros i Hi.
  rewrite Z.lor_spec, Z.shiftl_spec by done.
  destruct (Z.lt_ge_cases i n) as [Hlt|Hge].
  - rewrite (Z.testbit_neg_r b) by lia. rewrite orb_false_r.
    rewrite <- (Z.mod_pow2_bits_low (a + b * 2 ^ n) n i) by lia.
    rewrite Z.mod_add by lia. by rewrite Z.mod_small.
  - assert (Z.testbit a i = false) as ->.
    { destruct (decide (a = 0)) as [->|]; [apply Z.bits_0|].
      apply Z.bits_above_log2; [lia|].
      apply Z.log2_lt_pow2; [lia|].
      apply Z.lt_le_trans with (2 ^ n); [lia|].
      apply Z.pow_le_mono_r; lia. }
    simpl.
    replace i with ((i - n) + n) at 2 by lia.
    rewrite <- Z.div_pow2_bits by lia.
    rewrite Z.div_add by lia. rewrite Z.div_small by lia. done.
Qed.

Lemma Uint32_littleEndian32 k rest :
  0 ≤ k < 2 ^ 32 → Uint32 (littleEndian32 k ++ rest) = Returns k.
Proof.
  intros Hk. unfold littleEndian32, Uint32. simpl. f_equal.
  rewrite !byteVal_byteOf by (apply Z.mod_pos_bound; lia).
  assert (Hd3 : 0 ≤ k / 2 ^ 24 < 256).
  { split; [apply Z.div_pos; lia|]. apply Z.div_lt_upper_bound; lia. }
  rewrite (Z.mod_small (k / 2 ^ 24)) by done.
  pose proof (Z.mod_pos_bound k 256 ltac:(lia)).
  pose proof (Z.mod_pos_bound (k / 2 ^ 8) 256 ltac:(lia)).
  pose proof (Z.mod_pos_bound (k / 2 ^ 16) 256 ltac:(lia)).
  rewrite (lor_shiftl_add (k `mod` 256) _ 8) by lia.
  rewrite (lor_shiftl_add _ _ 16) by lia.
  rewrite (lor_shiftl_add _ _ 24) by lia.
  change (2 ^ 8) with 256 in *. change (2 ^ 16) with 65536 in *.
  change (2 ^ 24) with 16777216 in *. change (2 ^ 32) with 4294967296 in *.
  Z.to_euclidean_division_equations. lia.
Qed.

Lemma extValue_last_match (pre post : list Extension) (e : Extension) :
  Id e = ringNumOid → noRingNum post →
  foldl (λ extValue e,
           if bool_decide (Id e = ringNumOid) then Value e else extValue)
        None (pre ++ e :: post)
  = Value e.
Proof.
  intros He Hpost. rewrite foldl_app. simpl.
  rewrite bool_decide_eq_true_2 by done.
  generalize (Value e). induction Hpost as [|x post Hx _ IH]; intros v; [done|].
  simpl. rewrite bool_decide_eq_false_2 by done. apply IH.
Qed.

(** The ring count survives the trip through the certificate: when the
    last extension with the object identifier 2.5.13.37 starts with the
    four little-endian bytes of K, [NewNode] reads K, whatever bytes
    follow and whatever earlier extensions say. *)
Theorem ownRingNum_reads_little_endian
    (skid : list Byte.byte) (pre post : list Extension)
    (k : Z) (rest : list Byte.byte) :
  skid ≠ [] → 0 ≤ k < 2 ^ 32 → noRingNum post →
  ownRingNum skid
    (pre ++ {| Id := ringNumOid; Value := Some (littleEndian32 k ++ rest) |}
         :: post)
  = Returns (inl k).
Proof.
  intros Hs Hk Hpost. unfold ownRingNum.
  rewrite bool_decide_eq_false_2 by (destruct skid; [done|simpl; lia]).
  rewrite extValue_last_match by done. cbn [Value].
  by rewrite (Uint32_littleEndian32 k rest Hk).
Qed.

Lemma ownRingNum_reads_little_endian_witness :
  ownRingNum [Byte.x01]
    [ {| Id := ringNumOid; Value := None |};
      {| Id := ringNumOid;
         Value := Some (littleEndian32 300 ++ [Byte.xff]) |};
      {| Id := [2; 5; 29; 14]; Value := Some [] |} ]
  = Returns (inl 300).
Proof.
  apply (ownRingNum_reads_little_endian [Byte.x01]
           [ {| Id := ringNumOid; Value := None |} ]
           [ {| Id := [2; 5; 29; 14]; Value := Some [] |} ] 300 [Byte.xff]).
  - discriminate.
  - lia.
  - repeat constructor. discriminate.
Defined.

(** The failures of the same lines: an empty SubjectKeyId is [errNoId]
    whatever the extensions; no extension with the identifier, or a last
    one whose value is nil, is [errNoRingNum]; a last one with fewer than
    four bytes makes [binary.LittleEndian.Uint32] panic. *)
Theorem ownRingNum_failures (skid : list Byte.byte) (exts : list Extension) :
  (skid = [] → ownRingNum skid exts = Returns (inr errNoId))
  ∧ (skid ≠ [] → noRingNum exts →
     ownRingNum skid exts = Returns (inr errNoRingNum))
  ∧ (∀ pre post e,
       skid ≠ [] → exts = pre ++ e :: post →
       Id e = ringNumOid → noRingNum post →
       match Value e with
       | None => ownRingNum skid exts = Returns (inr errNoRingNum)
       | Some v => (length v < 4)%nat → ownRingNum skid exts = Panics
       end).
Proof.
  split_and!.
  - by intros ->.
  - intros Hs Hno. unfold ownRingNum.
    rewrite bool_decide_eq_false_2 by (destruct skid; [done|simpl; lia]).
    assert (∀ v, foldl (λ extValue e,
                          if bool_decide (Id e = ringNumOid) then Value e
                          else extValue) v exts = v) as ->; [|done].
    induction Hno as [|x l Hx _ IH]; intros v; [done|].
    simpl. rewrite bool_decide_eq_false_2 by done. apply IH.
  - intros pre post e Hs -> He Hpost. unfold ownRingNum.
    rewrite bool_decide_eq_false_2 by (destruct skid; [done|simpl; lia]).
    rewrite extValue_last_match by done.
    destruct (Value e) as [v|]; [|done].
    intros Hlen. destruct v as [|? [|? [|? [|? ?]]]]; simpl in *; try done; lia.
Qed.

Lemma ownRingNum_failures_witness :
  ownRingNum [Byte.x01]
    [ {| Id := ringNumOid; Value := Some (littleEndian32 3) |};
      {| Id := ringNumOid; Value := Some [Byte.x03; Byte.x00] |} ]
  = Panics.
Proof.
  destruct (ownRingNum_failures [Byte.x01]
              [ {| Id := ringNumOid; Value := Some (littleEndian32 3) |};
                {| Id := ringNumOid; Value := Some [Byte.x03; Byte.x00] |} ])
    as (_ & _ & H).
  apply (H [ {| Id := ringNumOid; Value := Some (littleEndian32 3) |} ] []
           {| Id := ringNumOid; Value := Some [Byte.x03; Byte.x00] |}).
  - discriminate.
  - reflexivity.
  - reflexivity.
  - constructor.
  - simpl. lia.
Defined.

End GossipMore.

Module NodeMore.
Import Go Node World NodeFacts.

Section More.
Context {R : Type} `{!Env R}.
Implicit Types (n : Node R) (p q : loc).

(** ** Spread *)

(** A call of [Spread] that returns an error has changed nothing and
    carries no reply; the error tells what was wrong: no peer in the
    context, no TLS, no certificate, or an unknown caller whose certificate
    [newPeer] rejects. *)
Theorem Spread_error_changes_nothing n (ctx : Context) (args : GossipMsg)
    n' (reply : option Partners) (e : error) :
  Spread n ctx args = Returns (n', (reply, Some e)) →
  n' = n ∧ reply = None
  ∧ ((e = errNoPeerInCtx ∧ ctx = None)
     ∨ (e = errNoTLSInfo ∧ ctx = Some otherAuthInfo)
     ∨ (e = errNoCert ∧ ctx = Some (TLSInfo []))
     ∨ (e = errInvalidPeerInformation
        ∧ ∃ cert rest, ctx = Some (TLSInfo (cert :: rest))
            ∧ viewPeerExist n (SubjectKeyId cert) = false
            ∧ is_Some (newPeerError cert))).
Proof.
  unfold Spread. intros Hs.
  destruct ctx as [[[|cert rest]|]|]; simplify_eq.
  - split_and!; [done|done|]. right. right. by left.
  - assert (Hcaller : addCaller n (SubjectKeyId cert) cert = None →
                      viewPeerExist n (SubjectKeyId cert) = false
                      ∧ is_Some (newPeerError cert)).
    { unfold addCaller, newPeer.
      destruct (viewPeerExist n (SubjectKeyId cert)); simpl; [done|].
      destruct (newPeerError cert); [eauto|]. simpl. done. }
    destruct (negb (shouldBeNeighbours _ _)).
    + destruct (Locality cert); [done|].
      destruct (addCaller n (SubjectKeyId cert) cert) eqn:Hc; simplify_eq.
      destruct (Hcaller eq_refl). split_and!; [done|done|].
      do 3 right. split; [done|]. by exists cert, rest.
    + destruct (addCaller n (SubjectKeyId cert) cert) eqn:Hc; simplify_eq.
      destruct (Hcaller eq_refl). split_and!; [done|done|].
      do 3 right. split; [done|]. by exists cert, rest.
  - split_and!; [done|done|]. right. by left.
  - split_and!; [done|done|]. by left.
Qed.

(** ** evalAccusation *)

Lemma evalAccusation_checks n (a : Accusation) :
  ((evalAccusation n a).2 = Recorded →
   id (peerId_ n) ≠ aAccused a
   ∧ ∃ p q,
       getLivePeer n (aAccused a) = Some p
       ∧ getLivePeer n (aAccuser a) = Some q
       ∧ notStale n a p = true
       ∧ validAccusation n a q
       ∧ isPrev (rings n) (deref n q) (deref n p) = true
       ∧ (evalAccusation n a).1
         = (let n1 := (setAccusation n p (accusationFrom n a p q)).1 in
            if negb (timerExist n1 (aAccused a))
            then startTimer n1 (key (deref n1 p)) (recentNote (deref n1 p)) q
                   (addr (deref n1 p))
            else n1))
  ∧ ((evalAccusation n a).2 ≠ Recorded → (evalAccusation n a).2 ≠ SelfAccused →
     (evalAccusation n a).1 = n).
Proof.
  unfold evalAccusation, equal, notStale, validAccusation, accusationFrom.
  case_bool_decide as Hself; simpl; [done|].
  destruct (getLivePeer n (aAccused a)) as [p|] eqn:Hp; simpl; [|done].
  destruct (match getNote (deref n p) with
            | Some pn => aEpoch a >? epoch pn | None => true end) eqn:Hst;
    simpl; [|done].
  destruct (getLivePeer n (aAccuser a)) as [q|] eqn:Hq; simpl; [|done].
  destruct (match getAccusation (deref n p) with
            | Some pa => negb (isHigherRank (rings n) (p_peerId (deref n q))
                                 (accuser pa))
            | None => false end); simpl; [done|].
  destruct (validateSignature _ _ _ _) as [[|] [e|]] eqn:Hv; simpl; try done.
  destruct (isPrev _ _ _) eqn:Hprev; simpl; [|done].
  unfold setAccusation. destruct (setAccusationError _ _) eqn:Hsa; simpl; [done|].
  split; [|done]. intros _. split; [exact Hself|]. exists p, q.
  rewrite Hsa. split_and!; done.
Qed.

Lemma evalAccusation_recorded_state n (a : Accusation) p P :
  (evalAccusation n a).2 = Recorded →
  getLivePeer n (aAccused a) = Some p → heap n !! p = Some P →
  let n' := (evalAccusation n a).1 in
  liveMap n' = liveMap n ∧ viewMap n' = viewMap n ∧ rings n' = rings n
  ∧ recentNote_ n' = recentNote_ n ∧ rebuttals n' = rebuttals n
  ∧ (∃ acc, heap n' = <[p := peer_setAccusation P (Some acc)]> (heap n)
            ∧ acc_epoch acc = aEpoch a
            ∧ accuserId n a = Some (accuser acc))
  ∧ (is_Some (timeoutMap n !! aAccused a) → timeoutMap n' = timeoutMap n)
  ∧ (timeoutMap n !! aAccused a = None →
     ∃ t, timeoutMap n' = <[key P := t]> (timeoutMap n)
          ∧ lastNote t = recentNote P ∧ getLivePeer n (aAccuser a) = Some (observer t)).
Proof.
  intros Hrec Hp HP.
  destruct (evalAccusation_checks n a) as [Hchk _].
  destruct (Hchk Hrec) as (_ & p' & q & Hp' & Hq & _ & _ & _ & Heq).
  assert (p' = p) as -> by congruence. cbv zeta. rewrite Heq. clear Heq Hchk.
  assert (Hsa : setAccusation n p (accusationFrom n a p q)
                = (set_heap n (alter (λ P, peer_setAccusation P
                                              (Some (accusationFrom n a p q))) p
                                 (heap n)), None)).
  { unfold setAccusation.
    destruct (setAccusationError _ _) eqn:E; [|done].
    exfalso. revert Hrec. unfold evalAccusation, equal.
    case_bool_decide; simpl; [done|]. rewrite Hp.
    destruct (match getNote (deref n p) with
              | Some pn => aEpoch a >? epoch pn | None => true end); [|done].
    rewrite Hq.
    destruct (match getAccusation (deref n p) with
              | Some pa => negb (isHigherRank (rings n) (p_peerId (deref n q))
                                   (accuser pa))
              | None => false end); [done|].
    destruct (validateSignature _ _ _ _) as [[|] [e'|]]; try done.
    destruct (isPrev _ _ _); simpl; [|done].
    unfold setAccusation. fold (accusationFrom n a p q). by rewrite E. }
  rewrite Hsa. simpl.
  assert (Hh : alter (λ P0, peer_setAccusation P0 (Some (accusationFrom n a p q))) p
                 (heap n)
               = <[p := peer_setAccusation P (Some (accusationFrom n a p q))]> (heap n)).
  { apply map_eq. intros i. rewrite lookup_alter, lookup_insert.
    case_decide; [subst; by rewrite HP|done]. }
  assert (Hd : ∀ m : Node R,
             heap m = alter (λ P0, peer_setAccusation P0
                                     (Some (accusationFrom n a p q))) p (heap n) →
             deref m p = peer_setAccusation P (Some (accusationFrom n a p q))).
  { intros m Hm. unfold deref. by rewrite Hm, (lookup_total_alter_Some _ _ _ P HP). }
  unfold timerExist. simpl.
  destruct (timeoutMap n !! aAccused a) as [t|] eqn:Ht; simpl.
  - split_and!; try done.
    exists (accusationFrom n a p q). split_and!; [done|done|].
    unfold accuserId. by rewrite Hq.
  - split_and!; try done.
    + exists (accusationFrom n a p q). split_and!; [done|done|].
      unfold accuserId. by rewrite Hq.
    + rewrite Hd by done. simpl. eexists. split_and!; done.
Qed.

(** [evalAccusation] records an accusation only if it has passed every
    check: the accused is not the local node, accused and accuser are in
    the live map, the accused has no note or an older one, the signature
    verifies under the accuser's key and the accuser precedes the accused.
    A call that ends in any drop leaves the node as it was. *)
Theorem evalAccusation_records_only_checked n (a : Accusation) :
  ((evalAccusation n a).2 = Recorded →
   id (peerId_ n) ≠ aAccused a
   ∧ ∃ p q,
       getLivePeer n (aAccused a) = Some p
       ∧ getLivePeer n (aAccuser a) = Some q
       ∧ notStale n a p = true
       ∧ validAccusation n a q
       ∧ isPrev (rings n) (deref n q) (deref n p) = true)
  ∧ ((evalAccusation n a).2 ≠ Recorded → (evalAccusation n a).2 ≠ SelfAccused →
     (evalAccusation n a).1 = n).
Proof.
  destruct (evalAccusation_checks n a) as [Hrec Hdrop]. split; [|done].
  intros Hv. destruct (Hrec Hv) as (Hne & p & q & ? & ? & ? & ? & ? & _).
  split; [done|]. by exists p, q.
Qed.

(** A recorded accusation leaves the accused where it was: the live map,
    the view map, the rings and the local note are untouched; the accused
    peer object gets the accusation with the incoming epoch and no other
    peer object changes; a timeout of the accused that is already running
    is kept, otherwise one is started under the peer's key, observed by the
    accuser and holding the accused's note. *)
Theorem evalAccusation_recorded_effect n (a : Accusation) p P :
  (evalAccusation n a).2 = Recorded →
  getLivePeer n (aAccused a) = Some p → heap n !! p = Some P →
  let n' := (evalAccusation n a).1 in
  liveMap n' = liveMap n ∧ viewMap n' = viewMap n ∧ rings n' = rings n
  ∧ recentNote_ n' = recentNote_ n ∧ rebuttals n' = rebuttals n
  ∧ (∃ acc, heap n' = <[p := peer_setAccusation P (Some acc)]> (heap n)
            ∧ acc_epoch acc = aEpoch a
            ∧ accuserId n a = Some (accuser acc))
  ∧ (is_Some (timeoutMap n !! aAccused a) → timeoutMap n' = timeoutMap n)
  ∧ (timeoutMap n !! aAccused a = None →
     ∃ t, timeoutMap n' = <[key P := t]> (timeoutMap n)
          ∧ lastNote t = recentNote P ∧ getLivePeer n (aAccuser a) = Some (observer t)).
Proof. apply evalAccusation_recorded_state. Qed.

(** ** evalNote *)

(** The three ways [evalNote] can end: a drop that leaves the node as it
    was, the note stored, or the accusation cleared. *)
Lemma evalNote_cases n (g : Note) :
  (∃ v, evalNote n g = (n, v) ∧ v ≠ NoteAccepted ∧ v ≠ NoteRebuttal)
  ∨ (∃ p, getViewPeer n (nId g) = Some p ∧ validNote n g p
          ∧ getAccusation (deref n p) = None
          ∧ evalNote n g
            = (match getLivePeer n (nId g) with
               | None => addLivePeer (setNote n p (noteFrom n g p)) p
               | Some _ => setNote n p (noteFrom n g p)
               end, NoteAccepted))
  ∨ (∃ p pa, getViewPeer n (nId g) = Some p ∧ validNote n g p
             ∧ getAccusation (deref n p) = Some pa
             ∧ evalNote n g
               = (addLivePeer (removeAccusation (deleteTimeout n (nId g)) p) p,
                  NoteRebuttal)).
Proof.
  unfold evalNote, validNote.
  destruct (getViewPeer n (nId g)) as [p|] eqn:Hp; [|left; by eexists].
  destruct (validateSignature _ _ _ _) as [[|] [e|]] eqn:Hv;
    try (left; by eexists).
  destruct (getAccusation (deref n p)) as [pa|] eqn:Hpa.
  - destruct (acc_epoch pa <? nEpoch g); [|left; by eexists].
    right; right. by exists p, pa.
  - destruct (match getNote (deref n p) with
              | Some cn => epoch cn <? nEpoch g | None => true end);
      [|left; by eexists].
    right; left. exists p. split_and!; done.
Qed.

(** What [evalNote] never does: it leaves the view map, the local note
    and the set of peer objects alone, takes no key out of the live map
    and adds no timeout; and unless the note is for a peer of the view
    and its signature verifies under that peer's key, it changes nothing
    at all. *)
Theorem evalNote_touches_little n (g : Note) :
  let n' := (evalNote n g).1 in
  viewMap n' = viewMap n
  ∧ peerId_ n' = peerId_ n ∧ recentNote_ n' = recentNote_ n
  ∧ rebuttals n' = rebuttals n
  ∧ dom (heap n') = dom (heap n)
  ∧ dom (liveMap n) ⊆ dom (liveMap n')
  ∧ dom (timeoutMap n') ⊆ dom (timeoutMap n)
  ∧ ((∀ p, getViewPeer n (nId g) = Some p → ¬ validNote n g p) → n' = n).
Proof.
  destruct (evalNote_cases n g)
    as [(v & -> & _)|[(p & Hp & Hv & _ & ->)|(p & pa & Hp & Hv & _ & ->)]];
    cbv zeta.
  - split_and!; done.
  - destruct (getLivePeer n (nId g)); simpl.
    + split_and!; try done; [apply dom_alter_L|].
      intros Hno. by destruct (Hno p Hp).
    + split_and!; try done; [apply dom_alter_L| |].
      * rewrite dom_insert_L. apply union_subseteq_r.
      * intros Hno. by destruct (Hno p Hp).
  - simpl. split_and!; try done.
    + apply dom_alter_L.
    + rewrite dom_insert_L. apply union_subseteq_r.
    + rewrite dom_delete_L. apply subseteq_difference_l. done.
    + intros Hno. by destruct (Hno p Hp).
Qed.

(** ** evalCertificate *)

Lemma newPeer_inl (nt : option note) (c : x509Certificate) P :
  newPeer nt c = inl P →
  key P = SubjectKeyId c ∧ recentNote P = nt ∧ p_accusation P = None
  ∧ newPeerError c = None.
Proof.
  unfold newPeer. destruct (newPeerError c); [done|]. by intros [= <-].
Qed.

(** The node with a new peer object for [P] in the view map. *)
Lemma addViewPeer_alloc n P :
  addViewPeer (alloc n P).1 (alloc n P).2
  = {| peerId_ := peerId_ n; recentNote_ := recentNote_ n;
       localAddr := localAddr n;
       heap := <[fresh (dom (heap n)) := P]> (heap n);
       viewMap := <[key P := fresh (dom (heap n))]> (viewMap n);
       liveMap := liveMap n; timeoutMap := timeoutMap n; rings := rings n;
       rebuttals := rebuttals n |}.
Proof.
  unfold addViewPeer, alloc, deref. simpl. by rewrite lookup_total_insert_eq.
Qed.

Lemma evalCertificate_cases n (c : x509Certificate) :
  evalCertificate n c = n
  ∨ (∃ P, newPeer None c = inl P
          ∧ viewMap n !! SubjectKeyId c = None
          ∧ evalCertificate n c = addViewPeer (alloc n P).1 (alloc n P).2).
Proof.
  unfold evalCertificate.
  destruct (_ || _); [by left|]. destruct (_ || _); [by left|].
  unfold getViewPeer. destruct (viewMap n !! SubjectKeyId c) eqn:Hk; [by left|].
  destruct (newPeer None c) as [P|e] eqn:HP; [|by left].
  right. exists P. split_and!; [done|done|]. by destruct (alloc n P).
Qed.


(** ** The maps stay consistent *)

Lemma consistentMaps_add_peer h v l t p P :
  consistentMaps h v l t → h !! p = None → v !! key P = None →
  p_accusation P = None →
  consistentMaps (<[p := P]> h) (<[key P := p]> v) l t
  ∧ consistentMaps (<[p := P]> h) (<[key P := p]> v) (<[key P := p]> l) t.
Proof.
  intros (Ha & Hb & Hc & Hd) Hp Hk Hacc.
  assert (Ht : t !! key P = None).
  { destruct (t !! key P) eqn:E; [|done].
    destruct (Hc (key P)) as [? ?]; [eauto|congruence]. }
  assert (Ha' : ∀ k q, <[key P := p]> v !! k = Some q →
                       ∃ Q, <[p := P]> h !! q = Some Q ∧ key Q = k).
  { intros k q. rewrite lookup_insert. case_decide as Hkk.
    - intros [= <-]. subst k. exists P. by rewrite lookup_insert_eq.
    - intros Hq. destruct (Ha k q Hq) as (Q & HQ & HkQ).
      exists Q. rewrite lookup_insert_ne; [done|]. congruence. }
  assert (Hc' : ∀ k, is_Some (t !! k) → is_Some (<[key P := p]> v !! k)).
  { intros k Hk'. rewrite lookup_insert. case_decide; [eauto|by apply Hc]. }
  assert (Hd' : ∀ k q Q, <[key P := p]> v !! k = Some q →
                  <[p := P]> h !! q = Some Q →
                  (is_Some (p_accusation Q) ↔ is_Some (t !! k))).
  { intros k q Q. rewrite lookup_insert. case_decide as Hkk.
    - intros [= <-]. subst k. rewrite lookup_insert_eq. intros [= <-].
      rewrite Hacc, Ht. split; by intros [? ?].
    - intros Hq. destruct (Ha k q Hq) as (Q' & HQ' & _).
      rewrite lookup_insert_ne by congruence. intros HQ. by apply (Hd k q). }
  split; (split_and!; [done| |done|done]).
  - intros k q Hq. rewrite lookup_insert_ne; [by apply Hb|].
    intros <-. apply Hb in Hq. congruence.
  - intros k q. rewrite !lookup_insert. case_decide; [done|]. apply Hb.
Qed.

Lemma consistentMaps_alter h v l t p (f : peer → peer) :
  consistentMaps h v l t →
  (∀ Q, key (f Q) = key Q ∧ p_accusation (f Q) = p_accusation Q) →
  consistentMaps (alter f p h) v l t.
Proof.
  intros (Ha & Hb & Hc & Hd) Hf. split_and!; [|done|done|].
  - intros k q Hq. destruct (Ha k q Hq) as (Q & HQ & HkQ).
    rewrite lookup_alter. case_decide; subst; rewrite HQ; simpl.
    + exists (f Q). split; [done|]. by rewrite (proj1 (Hf Q)).
    + by exists Q.
  - intros k q Q Hq. rewrite lookup_alter. case_decide; subst.
    + destruct (h !! q) as [Q0|] eqn:HQ0; simpl; [|done]. intros [= <-].
      rewrite (proj2 (Hf Q0)). by apply (Hd k q).
    + by apply Hd.
Qed.

Lemma consistentMaps_live h v l t k p :
  consistentMaps h v l t → v !! k = Some p →
  consistentMaps h v (<[k := p]> l) t.
Proof.
  intros (Ha & Hb & Hc & Hd) Hk. split_and!; [done| |done|done].
  intros k' q. rewrite lookup_insert. case_decide; [congruence|apply Hb].
Qed.

Lemma consistentMaps_same_key h v l t k k' p :
  consistentMaps h v l t → v !! k = Some p → v !! k' = Some p → k = k'.
Proof.
  intros (Ha & _) Hk Hk'.
  destruct (Ha k p Hk) as (P & HP & <-).
  destruct (Ha k' p Hk') as (P' & HP' & <-). congruence.
Qed.

Lemma consistentMaps_accuse h v l t k p (a : accusation) (tm : timeout) :
  consistentMaps h v l t → v !! k = Some p →
  consistentMaps (alter (λ P, peer_setAccusation P (Some a)) p h) v l
    (if bool_decide (is_Some (t !! k)) then t else <[k := tm]> t).
Proof.
  intros Hcm Hk. pose proof Hcm as (Ha & Hb & Hc & Hd).
  assert (Htk : ∀ k', is_Some ((if bool_decide (is_Some (t !! k)) then t
                                else <[k := tm]> t) !! k')
                      ↔ k' = k ∨ is_Some (t !! k')).
  { intros k'. case_bool_decide as Ht.
    - split; [by right|]. intros [->|?]; done.
    - rewrite lookup_insert. case_decide; subst.
      + split; [by left|eauto].
      + split; [by right|]. intros [?|?]; [congruence|done]. }
  split_and!; [|done| |].
  - intros k' q Hq. destruct (Ha k' q Hq) as (Q & HQ & HkQ).
    rewrite lookup_alter. case_decide; subst; rewrite HQ; simpl; eauto.
  - intros k' Hk'. apply Htk in Hk' as [->|?]; [eauto|by apply Hc].
  - intros k' q Q Hq. rewrite Htk, lookup_alter. case_decide; subst.
    + destruct (h !! q) as [Q0|] eqn:HQ0; simpl; [|done]. intros [= <-]. simpl.
      pose proof (consistentMaps_same_key _ _ _ _ _ _ _ Hcm Hk Hq) as ->.
      split; [by left|eauto].
    + intros HQ. rewrite (Hd k' q Q Hq HQ). split; [by right|].
      intros [->|?]; [congruence|done].
Qed.

Lemma consistentMaps_rebut h v l t k p :
  consistentMaps h v l t → v !! k = Some p →
  consistentMaps (alter (λ P, peer_setAccusation P None) p h) v l (delete k t).
Proof.
  intros Hcm Hk. pose proof Hcm as (Ha & Hb & Hc & Hd).
  split_and!; [|done| |].
  - intros k' q Hq. destruct (Ha k' q Hq) as (Q & HQ & HkQ).
    rewrite lookup_alter. case_decide; subst; rewrite HQ; simpl; eauto.
  - intros k' Hk'. apply Hc. rewrite lookup_delete in Hk'.
    case_decide; [by destruct Hk'|done].
  - intros k' q Q Hq. rewrite lookup_alter, lookup_delete. case_decide; subst.
    + destruct (h !! q) as [Q0|] eqn:HQ0; simpl; [|done]. intros [= <-]. simpl.
      pose proof (consistentMaps_same_key _ _ _ _ _ _ _ Hcm Hk Hq) as ->.
      rewrite decide_True by done. split; by intros [? ?].
    + intros HQ. case_decide; [subst; congruence|]. by apply (Hd k' q).
Qed.

Lemma consistent_evalNote n (g : Note) :
  consistent n → consistent (evalNote n g).1.
Proof.
  intros Hcm.
  destruct (evalNote_cases n g)
    as [(v & -> & _)|[(p & Hp & _ & _ & ->)|(p & pa & Hp & _ & _ & ->)]];
    [done| |].
  - pose proof Hcm as (Ha & _). destruct (Ha _ _ Hp) as (P & HP & HkP).
    assert (Hst : consistentMaps
                    (alter (λ P, peer_setNote P (noteFrom n g p)) p (heap n))
                    (viewMap n) (liveMap n) (timeoutMap n)).
    { by apply consistentMaps_alter. }
    destruct (getLivePeer n (nId g)); simpl; [done|].
    unfold consistent. simpl. unfold deref. simpl.
    rewrite (lookup_total_alter_Some _ _ _ P HP). simpl. rewrite HkP.
    by apply consistentMaps_live.
  - pose proof Hcm as (Ha & _). destruct (Ha _ _ Hp) as (P & HP & HkP).
    unfold consistent. simpl. unfold deref. simpl.
    rewrite (lookup_total_alter_Some _ _ _ P HP). simpl. rewrite HkP.
    apply consistentMaps_live; [|done]. by apply consistentMaps_rebut.
Qed.

Lemma consistent_evalAccusation n (a : Accusation) :
  consistent n → consistent (evalAccusation n a).1.
Proof.
  intros Hcm.
  destruct (evalAccusation_cases n a)
    as [->|[(v & -> & _)|(p & x & a' & n1 & Heq & Hp & _)]]; [done|done|].
  pose proof Hcm as (Ha & Hb & _).
  destruct (Ha _ _ (Hb _ _ Hp)) as (P & HP & HkP).
  assert (Hrec : (evalAccusation n a).2 = Recorded) by (by rewrite Heq).
  destruct (evalAccusation_recorded_state n a p P Hrec Hp HP)
    as (Hl & Hv & _ & _ & _ & (acc & Hh & _) & Ht1 & Ht2).
  unfold consistent. rewrite Hl, Hv, Hh.
  assert (Halt : <[p := peer_setAccusation P (Some acc)]> (heap n)
                 = alter (λ P, peer_setAccusation P (Some acc)) p (heap n)).
  { apply map_eq. intros i. rewrite lookup_alter, lookup_insert.
    case_decide; [subst; by rewrite HP|done]. }
  rewrite Halt.
  destruct (timeoutMap n !! aAccused a) as [t0|] eqn:Ht.
  - rewrite Ht1 by eauto.
    pose proof (consistentMaps_accuse _ _ _ _ (aAccused a) p acc t0 Hcm (Hb _ _ Hp)) as H.
    rewrite bool_decide_eq_true_2 in H by (rewrite Ht; eauto). done.
  - destruct (Ht2 eq_refl) as (t1 & -> & _). rewrite HkP.
    pose proof (consistentMaps_accuse _ _ _ _ (aAccused a) p acc t1 Hcm (Hb _ _ Hp)) as H.
    rewrite bool_decide_eq_false_2 in H by (rewrite Ht; by intros [? ?]). done.
Qed.

Lemma consistent_evalCertificate n (c : x509Certificate) :
  consistent n → consistent (evalCertificate n c).
Proof.
  intros Hcm. destruct (evalCertificate_cases n c) as [->|(P & HP & Hk & ->)];
    [done|].
  destruct (newPeer_inl _ _ _ HP) as (HkP & _ & Hacc & _).
  rewrite addViewPeer_alloc. unfold consistent. simpl.
  apply consistentMaps_add_peer; try done.
  - apply not_elem_of_dom. apply is_fresh.
  - by rewrite HkP.
Qed.

Lemma consistent_addCaller n (c : x509Certificate) n' :
  consistent n → addCaller n (SubjectKeyId c) c = Some n' → consistent n'.
Proof.
  intros Hcm. unfold addCaller.
  destruct (viewPeerExist n (SubjectKeyId c)) eqn:Hx; simpl; [by intros [= <-]|].
  destruct (newPeer None c) as [P|e] eqn:HP; [|done].
  destruct (newPeer_inl _ _ _ HP) as (HkP & _ & Hacc & _).
  intros [= <-].
  pose proof (addViewPeer_alloc n P) as E. unfold alloc in E. simpl in E.
  rewrite E. unfold consistent, addLivePeer, deref. simpl.
  rewrite lookup_total_insert_eq.
  apply consistentMaps_add_peer; try done.
  - apply not_elem_of_dom. apply is_fresh.
  - rewrite HkP. unfold viewPeerExist in Hx.
    apply bool_decide_eq_false in Hx.
    destruct (viewMap n !! SubjectKeyId c); [|done]. destruct Hx. eauto.
Qed.

Lemma consistent_mergeNotes (notes : list Note) n :
  consistent n → consistent (mergeNotes n notes).
Proof.
  unfold mergeNotes. revert n. induction notes as [|g notes IH]; intros n Hcm;
    [done|].
  simpl. apply IH. destruct (equal _ _); [done|]. by apply consistent_evalNote.
Qed.

Lemma consistent_mergeAccusations (accs : list Accusation) n :
  consistent n → consistent (mergeAccusations n accs).
Proof.
  unfold mergeAccusations. revert n.
  induction accs as [|a accs IH]; intros n Hcm; [done|].
  simpl. apply IH. by apply consistent_evalAccusation.
Qed.

Lemma consistent_mergeCertificates (certs : list Certificate) n c :
  consistent n → consistent (mergeCertificates n certs c).
Proof.
  unfold mergeCertificates. intros Hcm.
  apply (consistent_evalCertificate n c) in Hcm.
  revert Hcm. generalize (evalCertificate n c). clear n.
  induction certs as [|b certs IH]; intros n Hcm; [done|].
  simpl. apply IH. destruct (ParseCertificate _); [|done].
  by apply consistent_evalCertificate.
Qed.

Lemma consistentb_sound n : consistentb n = true → consistent n.
Proof.
  unfold consistentb. rewrite !andb_true_iff, !bool_decide_eq_true.
  intros [[[Ha Hb] Hc] Hd]. split_and!.
  - intros k p Hk. specialize (Ha k p Hk). simpl in Ha.
    destruct (heap n !! p) as [P|]; [|done].
    simpl in Ha. injection Ha as <-. by exists P.
  - intros k p Hk. by apply (Hb k p).
  - intros k [t Ht]. by apply (Hc k t).
  - intros k p P Hk HP. specialize (Hd k p Hk). simpl in Hd.
    rewrite (deref_Some n p P HP) in Hd.
    split; intros Hs.
    + assert (Hb1 : bool_decide (is_Some (p_accusation P)) = true)
        by (by apply bool_decide_eq_true_2).
      rewrite Hd in Hb1. by apply bool_decide_eq_true in Hb1.
    + assert (Hb1 : bool_decide (is_Some (timeoutMap n !! k)) = true)
        by (by apply bool_decide_eq_true_2).
      rewrite <- Hd in Hb1. by apply bool_decide_eq_true in Hb1.
Qed.

(** [Spread] keeps the maps of the node consistent, whoever calls and
    whatever the message holds: afterwards every key of the view map still
    leads to a peer object carrying that key, the live map is still part of
    the view map, and a peer of the view has a timeout exactly when it has
    an accusation.  The same holds for each of [evalNote],
    [evalAccusation] and [evalCertificate] on its own. *)
Theorem Spread_keeps_consistent n (ctx : Context) (args : GossipMsg) n' r :
  consistent n →
  Spread n ctx args = Returns (n', r) →
  consistent n'
  ∧ (∀ g, consistent (evalNote n g).1)
  ∧ (∀ a, consistent (evalAccusation n a).1)
  ∧ (∀ c, consistent (evalCertificate n c)).
Proof.
  intros Hcm Hs. split.
  - unfold Spread in Hs.
    destruct ctx as [[[|c rest]|]|]; simplify_eq; try done.
    destruct (negb (shouldBeNeighbours _ _)).
    + destruct (Locality c); [done|].
      destruct (addCaller n (SubjectKeyId c) c) as [n1|] eqn:Hc; simplify_eq;
        [|done].
      by eapply consistent_addCaller.
    + destruct (addCaller n (SubjectKeyId c) c) as [n1|] eqn:Hc; simplify_eq;
        [|done].
      apply consistent_mergeAccusations, consistent_mergeNotes,
        consistent_mergeCertificates.
      by eapply consistent_addCaller.
  - split_and!; intros; [by apply consistent_evalNote
                        |by apply consistent_evalAccusation
                        |by apply consistent_evalCertificate].
Qed.

(** ** Stored notes through a gossip exchange *)




Lemma notesKept_same_heap n n' : heap n' = heap n → notesKept n n'.
Proof.
  intros Hh p e He. exists e. split; [|lia].
  unfold storedEpoch, deref in *. by rewrite Hh.
Qed.






(** The merge loops of the source are runs of the evaluation functions:
    [mergeNotes] is the run of [evalNote] over the notes that do not name
    the local node, [mergeAccusations] the run of [evalAccusation] over all
    accusations, and [mergeCertificates] evaluates the caller's certificate
    and then every certificate of the message that parses, skipping the
    others. *)
Theorem merge_loops_are_runs n (notes : list Note) (accs : list Accusation)
    (certs : list Certificate) (c : x509Certificate) :
  mergeNotes n notes
    = (evalNotes n (filter (λ g, nId g ≠ id (peerId_ n)) notes)).1
  ∧ mergeAccusations n accs = (evalAccusations n accs).1
  ∧ mergeCertificates n certs c
    = foldl evalCertificate (evalCertificate n c)
        (omap (λ b, ParseCertificate (Raw b)) certs).
Proof.
  split_and!.
  - unfold mergeNotes. revert n. induction notes as [|g notes IH]; intros n; [done|].
    simpl. unfold equal at 2. simpl. rewrite filter_cons. case_bool_decide as Hg.
    + rewrite decide_False by (intros Hne; by apply Hne). apply IH.
    + rewrite decide_True by (intros Heq; by apply Hg).
      simpl. rewrite IH.
      assert (Hid : peerId_ (evalNote n g).1 = peerId_ n).
      { destruct (evalNote_cases n g)
          as [(v & -> & _)|[(p & _ & _ & _ & ->)|(p & pa & _ & _ & _ & ->)]];
          [done| |done]. by destruct (getLivePeer n (nId g)). }
      rewrite Hid. destruct (evalNote n g) as [n1 v]. simpl.
      by destruct (evalNotes n1 _).
  - unfold mergeAccusations. revert n.
    induction accs as [|a accs IH]; intros n; [done|].
    rewrite evalAccusations_cons. simpl. apply IH.
  - unfold mergeCertificates. generalize (evalCertificate n c). clear n.
    induction certs as [|b certs IH]; intros n; [done|].
    simpl. rewrite IH. by destruct (ParseCertificate (Raw b)).
Qed.





(** ** An accusation and the note that answers it *)

(** After an accusation of epoch [e] has been recorded on a peer, a
    validly signed note of that peer with a greater epoch clears the
    accusation and its timeout and leaves the peer in the live map, while
    the peer's stored note stays the one it had; a note of epoch [e] or
    less changes nothing. *)
Theorem accusation_then_note n (a : Accusation) (g : Note) p P :
  consistent n →
  (evalAccusation n a).2 = Recorded →
  getLivePeer n (aAccused a) = Some p → heap n !! p = Some P →
  nId g = aAccused a → validNote n g p →
  let n1 := (evalAccusation n a).1 in
  let n2 := (evalNote n1 g).1 in
  (aEpoch a < nEpoch g →
   (evalNote n1 g).2 = NoteRebuttal
   ∧ p_accusation (deref n2 p) = None
   ∧ recentNote (deref n2 p) = recentNote P
   ∧ timeoutMap n2 !! aAccused a = None
   ∧ liveMap n2 !! aAccused a = Some p)
  ∧ (nEpoch g ≤ aEpoch a → evalNote n1 g = (n1, NoteNotRebutting)).
Proof.
  intros Hcm Hrec Hp HP Hid Hv. cbv zeta.
  destruct (evalAccusation_recorded_state n a p P Hrec Hp HP)
    as (Hl & Hvm & _ & _ & _ & (acc & Hh & Hepoch & _) & _ & _).
  set (n1 := (evalAccusation n a).1) in *.
  pose proof Hcm as (Ha & Hb & _).
  pose proof (Hb _ _ Hp) as Hview.
  destruct (Ha _ _ Hview) as (P' & HP' & HkP). simplify_eq.
  assert (HP1 : heap n1 !! p = Some (peer_setAccusation P (Some acc))).
  { by rewrite Hh, lookup_insert_eq. }
  assert (Hview1 : getViewPeer n1 (nId g) = Some p).
  { unfold getViewPeer. by rewrite Hvm, Hid. }
  assert (Hv1 : validNote n1 g p).
  { unfold validNote in *. rewrite (deref_Some n1 p _ HP1). simpl.
    by rewrite (deref_Some n p P HP) in Hv. }
  rewrite (evalNote_valid n1 g p Hview1 Hv1).
  unfold getAccusation. rewrite (deref_Some n1 p _ HP1). simpl. rewrite Hepoch.
  split.
  - intros Hlt. rewrite (proj2 (Z.ltb_lt _ _) Hlt). simpl.
    unfold deref. simpl. rewrite (lookup_total_alter_Some _ _ _ _ HP1). simpl.
    rewrite Hid, HkP. rewrite lookup_delete_eq, lookup_insert_eq. done.
  - intros Hle. by rewrite (proj2 (Z.ltb_ge _ _) Hle).
Qed.

End More.

(** ** The theorems above on concrete inputs *)

Lemma Spread_error_changes_nothing_witness :
  let n := node 1 None None ∅ in
  let ctx := Some (TLSInfo []) in
  Spread n ctx emptyMsg = Returns (n, (None, Some errNoCert))
  ∧ ((errNoCert = errNoPeerInCtx ∧ ctx = None)
     ∨ (errNoCert = errNoTLSInfo ∧ ctx = Some otherAuthInfo)
     ∨ (errNoCert = errNoCert ∧ ctx = Some (TLSInfo []))
     ∨ (errNoCert = errInvalidPeerInformation
        ∧ ∃ cert rest, ctx = Some (TLSInfo (cert :: rest))
            ∧ viewPeerExist n (SubjectKeyId cert) = false
            ∧ is_Some (newPeerError cert))).
Proof.
  cbv zeta. split; [reflexivity|].
  destruct (Spread_error_changes_nothing (node 1 None None ∅) (Some (TLSInfo []))
              emptyMsg (node 1 None None ∅) None errNoCert eq_refl)
    as (_ & _ & H).
  exact H.
Defined.

Lemma evalAccusation_recorded_effect_witness :
  let n := node 1 (Some (noteOf "B" 6)) None ∅ in
  let a := accuse "C" "B" 7 in
  let n' := (evalAccusation n a).1 in
  (evalAccusation n a).2 = Recorded
  ∧ liveMap n' = liveMap n
  ∧ (∃ t, timeoutMap n' = <["B" := t]> (timeoutMap n)
          ∧ lastNote t = Some (noteOf "B" 6)
          ∧ getLivePeer n "C" = Some (observer t)).
Proof.
  cbv zeta.
  assert (Hrec : (evalAccusation (node 1 (Some (noteOf "B" 6)) None ∅)
                    (accuse "C" "B" 7)).2 = Recorded) by reflexivity.
  split; [exact Hrec|].
  destruct (evalAccusation_recorded_effect
              (node 1 (Some (noteOf "B" 6)) None ∅) (accuse "C" "B" 7) 1%nat
              (peerOf "B" (Some (noteOf "B" 6)) None) Hrec eq_refl eq_refl)
    as (Hl & _ & _ & _ & _ & _ & _ & Ht).
  split; [exact Hl|]. apply Ht. reflexivity.
Defined.

Lemma Spread_keeps_consistent_witness :
  let n := node 1 (Some (noteOf "B" 6)) None ∅ in
  let msg := {| Certificates := [ {| Raw := "E" |} ];
                Notes := [sendNote "B" 8; sendNote "E" 2];
                Accusations := [accuse "C" "B" 9] |} in
  consistent n
  ∧ match Spread n (Some (TLSInfo [certOf "A"])) msg with
    | Returns (n', _) => consistent n'
    | _ => False
    end.
Proof.
  cbv zeta.
  assert (Hc : consistent (node 1 (Some (noteOf "B" 6)) None ∅)).
  { apply consistentb_sound. vm_compute. reflexivity. }
  split; [exact Hc|].
  destruct (Spread _ _ _) as [[n' r]| |] eqn:E.
  - exact (proj1 (Spread_keeps_consistent _ _ _ n' r Hc E)).
  - vm_compute in E. discriminate E.
  - vm_compute in E. discriminate E.
Defined.


Lemma accusation_then_note_witness :
  let n := node 1 (Some (noteOf "B" 6)) None ∅ in
  let n1 := (evalAccusation n (accuse "C" "B" 7)).1 in
  let n2 := (evalNote n1 (sendNote "B" 8)).1 in
  consistent n
  ∧ (evalNote n1 (sendNote "B" 8)).2 = NoteRebuttal
  ∧ p_accusation (deref n2 1%nat) = None
  ∧ timeoutMap n2 !! "B" = None
  ∧ liveMap n2 !! "B" = Some 1%nat.
Proof.
  cbv zeta.
  assert (Hc : consistent (node 1 (Some (noteOf "B" 6)) None ∅)).
  { apply consistentb_sound. vm_compute. reflexivity. }
  assert (Hrec : (evalAccusation (node 1 (Some (noteOf "B" 6)) None ∅)
                    (accuse "C" "B" 7)).2 = Recorded) by reflexivity.
  assert (Hv : validNote (node 1 (Some (noteOf "B" 6)) None ∅)
                 (sendNote "B" 8) 1%nat) by reflexivity.
  destruct (accusation_then_note (node 1 (Some (noteOf "B" 6)) None ∅)
              (accuse "C" "B" 7) (sendNote "B" 8) 1%nat
              (peerOf "B" (Some (noteOf "B" 6)) None)
              Hc Hrec eq_refl eq_refl eq_refl Hv) as [Hnew _].
  destruct Hnew as (H1 & H2 & _ & H4 & H5); [simpl; lia|].
  split_and!; [exact Hc|exact H1|exact H2|exact H4|exact H5].
Defined.

End NodeMore.
